(** * useProducts: the product-listing data hook and its cache

    A shallow embedding of [src/hooks/useProducts] (the [ProductsCache]
    class and the [useProducts] hook) together with the properties of the
    synchronisation engine that the specification states about it.

    Conventions of the embedding:
    - JavaScript objects are association lists in insertion order
      ([JsObject]); arrays of products live in a store of mutable arrays and
      are handled through their address, so that aliasing is visible;
    - [Date.now()] is an explicit argument [now] (milliseconds, in [Z]);
    - the asynchronous functions are cut at their [await]s: the part that
      runs up to the first [await] is a function on the hook's state, and the
      continuation is run when the environment settles the awaited promise;
    - [setState(updater)] applies the updater to the hook's state at once
      (a [Date.now()] inside an updater then reads the clock of the call;
      React may run the updater as late as the next render, so the stamp
      left in [lastFetchTime] can be later than that);
      what the callbacks created by a render see ([state.loading],
      [state.pagination], [searchParams]) is the snapshot taken by the last
      render, kept apart in [seen_loading], [seen_pagination] and
      [seen_params]. *)

From Stdlib Require Import ZArith Ascii String DecimalString.
From stdpp Require Import gmap strings list.

Open Scope Z_scope.

(** ** JavaScript values *)

(** The values that can occur in a [ProductSearchParams] object. Numbers are
    the integer-valued ones (page numbers, sizes, price bounds). *)
Unset Elimination Schemes.
Inductive JsValue : Type :=
| JUndefined
| JNull
| JBool (b : bool)
| JNum (n : Z)
| JStr (s : string)
| JArr (xs : list JsValue)
| JObj (fields : list (string * JsValue)).
Set Elimination Schemes.

(** An object: its own enumerable string-keyed properties, in insertion
    order. A well-formed object has no key twice. *)
Abbreviation JsObject := (list (string * JsValue)).

Definition wf_object (o : JsObject) : Prop := NoDup (o.*1).

(** [o[k]]: reading a property; an absent property reads as [undefined]. *)
Fixpoint obj_get (k : string) (o : JsObject) : JsValue :=
  match o with
  | [] => JUndefined
  | (k', v) :: o' => if String.eqb k k' then v else obj_get k o'
  end.

Fixpoint obj_has (k : string) (o : JsObject) : bool :=
  match o with
  | [] => false
  | (k', _) :: o' => String.eqb k k' || obj_has k o'
  end.

(** [o[k] = v]: an existing property keeps its place, a new one goes last. *)
Fixpoint obj_set (k : string) (v : JsValue) (o : JsObject) : JsObject :=
  match o with
  | [] => [(k, v)]
  | (k', v') :: o' =>
      if String.eqb k k' then (k', v) :: o' else (k', v') :: obj_set k v o'
  end.

(** [{...a, ...b}]: the properties of [a], then those of [b] assigned in
    order. *)
Definition obj_spread (a b : JsObject) : JsObject :=
  foldl (fun acc kv => obj_set kv.1 kv.2 acc) a b.

(** ** Printing *)

Definition dquote : string := String (ascii_of_nat 34) EmptyString.
Definition backslash : string := String (ascii_of_nat 92) EmptyString.

(** [String(n)] for an integer-valued number. *)
Definition string_of_Z (n : Z) : string := NilZero.string_of_int (Z.to_int n).

Definition hex_digit (n : nat) : ascii :=
  if (n <? 10)%nat then ascii_of_nat (48 + n) else ascii_of_nat (87 + n).

(** The escape of one character inside a JSON string literal. *)
Definition json_escape (c : ascii) : string :=
  let n := nat_of_ascii c in
  if (n =? 34)%nat then backslash +:+ dquote
  else if (n =? 92)%nat then backslash +:+ backslash
  else if (n =? 8)%nat then backslash +:+ "b"
  else if (n =? 9)%nat then backslash +:+ "t"
  else if (n =? 10)%nat then backslash +:+ "n"
  else if (n =? 12)%nat then backslash +:+ "f"
  else if (n =? 13)%nat then backslash +:+ "r"
  else if (n <? 32)%nat then
    backslash +:+ "u00" +:+
      String (hex_digit (n / 16)) (String (hex_digit (n mod 16)) EmptyString)
  else String c EmptyString.

Fixpoint json_escape_all (s : string) : string :=
  match s with
  | EmptyString => EmptyString
  | String c s' => json_escape c +:+ json_escape_all s'
  end.

Definition json_quote (s : string) : string :=
  dquote +:+ json_escape_all s +:+ dquote.

Fixpoint join (sep : string) (parts : list string) : string :=
  match parts with
  | [] => ""
  | [p] => p
  | p :: rest => p +:+ sep +:+ join sep rest
  end.

Definition json_member (k : string) (s : string) : string :=
  json_quote k +:+ ":" +:+ s.

(** [JSON.stringify(v)]: [None] is the result [undefined]. A property whose
    value prints as [undefined] is left out of an object; such an element of
    an array is printed as [null]. *)
Fixpoint JSON_stringify (v : JsValue) : option string :=
  match v with
  | JUndefined => None
  | JNull => Some "null"
  | JBool b => Some (if b then "true" else "false")
  | JNum n => Some (string_of_Z n)
  | JStr s => Some (json_quote s)
  | JArr xs =>
      Some ("[" +:+ join "," (map (fun x => default "null" (JSON_stringify x)) xs)
                +:+ "]")
  | JObj fs =>
      Some ("{" +:+ join ","
                     (omap (fun kv => json_member kv.1 <$> JSON_stringify kv.2) fs)
                +:+ "}")
  end.

(** [String(v)], as used for a query parameter. *)
Fixpoint js_String (v : JsValue) : string :=
  match v with
  | JUndefined => "undefined"
  | JNull => "null"
  | JBool b => if b then "true" else "false"
  | JNum n => string_of_Z n
  | JStr s => s
  | JArr xs =>
      join "," (map (fun x => match x with
                              | JUndefined | JNull => ""
                              | _ => js_String x
                              end) xs)
  | JObj _ => "[object Object]"
  end.

(** ** Domain types (src/types/Product) *)

Inductive ProductStatus := active | inactive | pending | error_status.
Inductive Availability := in_stock | out_of_stock | limited | unknown.

(** The engine passes products through without looking inside them. Numeric
    fields are integers here. *)
Record Product := {
  id : Z;
  title : string;
  price : Z;
  image_url : option string;
  description : option string;
  category : option string;
  brand : option string;
  availability : option Availability;
  status : ProductStatus;
  created_at : string;
  updated_at : string;
}.

Record PaginationMetadata := {
  current_page : Z;
  last_page : Z;
  per_page : Z;
  total : Z;
  has_next_page : bool;
  has_previous_page : bool;
}.

(** The body of a products response, [PaginatedProductResponse]:
    [data_data] is [data.data.data] and [data_pagination] is
    [data.data.pagination]; [None] stands for a missing, [undefined] or
    [null] property. *)
Record PaginatedProductResponse := {
  success : bool;
  message : option string;
  data_data : option (list Product);
  data_pagination : option PaginationMetadata;
}.

(** ** The store of product arrays

    A [Product[]] is a mutable object; the store maps its address to its
    current contents. Allocation takes the next free address. *)
Abbreviation Store := (list (list Product)).

Definition array_read (m : Store) (a : nat) : list Product := default [] (m !! a).

Definition array_alloc (items : list Product) (m : Store) : nat * Store :=
  (length m, m ++ [items]).

(** What a caller holding the array at [a] can do to it: overwrite its
    contents in place (push, pop, splice, sort, ...). *)
Definition array_mutate (a : nat) (f : list Product → list Product) (m : Store) : Store :=
  <[a := f (array_read m a)]> m.

(** ** ProductsCache *)

Record CacheEntry := { data : nat; timestamp : Z }.

Module ProductsCache.

Record t := { cache : gmap string CacheEntry; timeout : Z }.

(** [new ProductsCache(timeout)], the default being five minutes. *)
Definition new (timeout : option Z) : t :=
  {| cache := ∅; timeout := default (5 * 60 * 1000) timeout |}.

Definition generateKey (params : JsObject) : string :=
  default "undefined" (JSON_stringify (JObj params)).

Definition get (pc : t) (params : JsObject) (now : Z) : option nat * t :=
  let key := generateKey params in
  match cache pc !! key with
  | None => (None, pc)
  | Some cached =>
      if now - timestamp cached >? timeout pc
      then (None, {| cache := delete key (cache pc); timeout := timeout pc |})
      else (Some (data cached), pc)
  end.

(** [set] stores a fresh copy [[...data]] of the array it is given. *)
Definition set (pc : t) (m : Store) (params : JsObject) (data : nat) (now : Z)
  : Store * t :=
  let key := generateKey params in
  let (copy, m') := array_alloc (array_read m data) m in
  (m', {| cache := <[key := {| data := copy; timestamp := now |}]> (cache pc);
          timeout := timeout pc |}).

Definition clear (pc : t) : t := {| cache := ∅; timeout := timeout pc |}.

End ProductsCache.

(** ** The hook's state *)

Record ProductsState := {
  products : nat;
  loading : bool;
  error : option string;
  pagination : option PaginationMetadata;
  lastFetchTime : option Z;
}.

Record UseProductsConfig := {
  initialParams : JsObject;
  autoFetch : bool;
  refreshInterval : option Z;
}.

(** A value that can be thrown or be the reason of a rejected promise:
    an [Error] instance with its [name] and [message], a string, or
    anything else. *)
Inductive Thrown :=
| ThrownError (name message : string)
| ThrownString (s : string)
| ThrownOther.

(** How the environment settles the promise a task is waiting for. *)
Inductive Settled :=
| Responded (ok : bool) (status : Z)
| Parsed (body : PaginatedProductResponse)
| Rejected (reason : Thrown).

Inductive Awaiting := AwaitFetch | AwaitJson.

(** A call of [fetchProducts] remembers its argument, the [AbortController]
    whose signal it gave to [fetch], and the [state.loading] its closure was
    created with; a call of [loadMore] gives [fetch] no signal. *)
Inductive TaskKind :=
| FetchProductsTask (params : JsObject) (controller : nat) (closure_loading : bool)
| LoadMoreTask.

Record Task := {
  kind : TaskKind;
  awaiting : Awaiting;
  query : list (string * string);
}.

(** An armed timer and what its callback will call: the retry closure
    [() => fetchProducts(params)], or [refetch] of the render that armed the
    interval. *)
Inductive Timer :=
| RetryTimer (delay : Z) (params : JsObject) (closure_loading : bool)
| RefreshTimer (interval : Z) (params : JsObject) (closure_loading : bool).

Record Hook := {
  state : ProductsState;
  searchParams : JsObject;
  seen_loading : bool;
  seen_pagination : option PaginationMetadata;
  seen_params : JsObject;
  params_dirty : bool;
  abortControllerRef : option nat;
  refreshIntervalRef : option nat;
  retryTimeoutRef : option nat;
  signals : list bool;
  tasks : list (option Task);
  timers : list (option Timer);
  productsCache : ProductsCache.t;
  arrays : Store;
}.

(** Field updates. *)
Definition set_state (f : ProductsState → ProductsState) (h : Hook) : Hook :=
  {| state := f (state h); searchParams := searchParams h;
     seen_loading := seen_loading h; seen_pagination := seen_pagination h;
     seen_params := seen_params h; params_dirty := params_dirty h;
     abortControllerRef := abortControllerRef h;
     refreshIntervalRef := refreshIntervalRef h;
     retryTimeoutRef := retryTimeoutRef h; signals := signals h;
     tasks := tasks h; timers := timers h;
     productsCache := productsCache h; arrays := arrays h |}.

Definition set_searchParams (p : JsObject) (h : Hook) : Hook :=
  {| state := state h; searchParams := p;
     seen_loading := seen_loading h; seen_pagination := seen_pagination h;
     seen_params := seen_params h; params_dirty := true;
     abortControllerRef := abortControllerRef h;
     refreshIntervalRef := refreshIntervalRef h;
     retryTimeoutRef := retryTimeoutRef h; signals := signals h;
     tasks := tasks h; timers := timers h;
     productsCache := productsCache h; arrays := arrays h |}.

(** A render: the callbacks it creates capture the current values. *)
Definition commit (h : Hook) : Hook :=
  {| state := state h; searchParams := searchParams h;
     seen_loading := loading (state h);
     seen_pagination := pagination (state h);
     seen_params := searchParams h; params_dirty := false;
     abortControllerRef := abortControllerRef h;
     refreshIntervalRef := refreshIntervalRef h;
     retryTimeoutRef := retryTimeoutRef h; signals := signals h;
     tasks := tasks h; timers := timers h;
     productsCache := productsCache h; arrays := arrays h |}.

Definition set_abortControllerRef (r : option nat) (h : Hook) : Hook :=
  {| state := state h; searchParams := searchParams h;
     seen_loading := seen_loading h; seen_pagination := seen_pagination h;
     seen_params := seen_params h; params_dirty := params_dirty h;
     abortControllerRef := r;
     refreshIntervalRef := refreshIntervalRef h;
     retryTimeoutRef := retryTimeoutRef h; signals := signals h;
     tasks := tasks h; timers := timers h;
     productsCache := productsCache h; arrays := arrays h |}.

Definition set_refreshIntervalRef (r : option nat) (h : Hook) : Hook :=
  {| state := state h; searchParams := searchParams h;
     seen_loading := seen_loading h; seen_pagination := seen_pagination h;
     seen_params := seen_params h; params_dirty := params_dirty h;
     abortControllerRef := abortControllerRef h;
     refreshIntervalRef := r;
     retryTimeoutRef := retryTimeoutRef h; signals := signals h;
     tasks := tasks h; timers := timers h;
     productsCache := productsCache h; arrays := arrays h |}.

Definition set_retryTimeoutRef (r : option nat) (h : Hook) : Hook :=
  {| state := state h; searchParams := searchParams h;
     seen_loading := seen_loading h; seen_pagination := seen_pagination h;
     seen_params := seen_params h; params_dirty := params_dirty h;
     abortControllerRef := abortControllerRef h;
     refreshIntervalRef := refreshIntervalRef h;
     retryTimeoutRef := r; signals := signals h;
     tasks := tasks h; timers := timers h;
     productsCache := productsCache h; arrays := arrays h |}.

Definition set_signals (l : list bool) (h : Hook) : Hook :=
  {| state := state h; searchParams := searchParams h;
     seen_loading := seen_loading h; seen_pagination := seen_pagination h;
     seen_params := seen_params h; params_dirty := params_dirty h;
     abortControllerRef := abortControllerRef h;
     refreshIntervalRef := refreshIntervalRef h;
     retryTimeoutRef := retryTimeoutRef h; signals := l;
     tasks := tasks h; timers := timers h;
     productsCache := productsCache h; arrays := arrays h |}.

Definition set_tasks (l : list (option Task)) (h : Hook) : Hook :=
  {| state := state h; searchParams := searchParams h;
     seen_loading := seen_loading h; seen_pagination := seen_pagination h;
     seen_params := seen_params h; params_dirty := params_dirty h;
     abortControllerRef := abortControllerRef h;
     refreshIntervalRef := refreshIntervalRef h;
     retryTimeoutRef := retryTimeoutRef h; signals := signals h;
     tasks := l; timers := timers h;
     productsCache := productsCache h; arrays := arrays h |}.

Definition set_timers (l : list (option Timer)) (h : Hook) : Hook :=
  {| state := state h; searchParams := searchParams h;
     seen_loading := seen_loading h; seen_pagination := seen_pagination h;
     seen_params := seen_params h; params_dirty := params_dirty h;
     abortControllerRef := abortControllerRef h;
     refreshIntervalRef := refreshIntervalRef h;
     retryTimeoutRef := retryTimeoutRef h; signals := signals h;
     tasks := tasks h; timers := l;
     productsCache := productsCache h; arrays := arrays h |}.

Definition set_cache (pc : ProductsCache.t) (m : Store) (h : Hook) : Hook :=
  {| state := state h; searchParams := searchParams h;
     seen_loading := seen_loading h; seen_pagination := seen_pagination h;
     seen_params := seen_params h; params_dirty := params_dirty h;
     abortControllerRef := abortControllerRef h;
     refreshIntervalRef := refreshIntervalRef h;
     retryTimeoutRef := retryTimeoutRef h; signals := signals h;
     tasks := tasks h; timers := timers h;
     productsCache := pc; arrays := m |}.

(** ** The hook's operations *)

(** [a || b] on an optional string: the empty string is falsy. *)
Definition string_or (a : option string) (b : string) : string :=
  match a with
  | Some s => if String.eqb s "" then b else s
  | None => b
  end.

(** [n || 0] on a number. *)
Definition number_or_zero (n : Z) : Z := if n =? 0 then 0 else n.

Definition http_error (status : Z) : Thrown :=
  ThrownError "Error" ("HTTP error! status: " +:+ string_of_Z status).

(** The reason with which [fetch] and the body of its response reject once
    the signal they were given is aborted. *)
Definition AbortError : Thrown :=
  ThrownError "AbortError" "The operation was aborted.".

Definition aborted (h : Hook) (c : nat) : bool :=
  bool_decide (signals h !! c = Some true).

(** [abortControllerRef.current.abort()], when there is a controller. *)
Definition abort_current (h : Hook) : Hook :=
  match abortControllerRef h with
  | Some c => set_signals (<[c := true]> (signals h)) h
  | None => h
  end.

(** [new AbortController()] stored in the ref. *)
Definition new_controller (h : Hook) : Hook :=
  set_abortControllerRef (Some (length (signals h)))
    (set_signals (signals h ++ [false]) h).

(** A call that reaches its first [await] becomes a pending task. *)
Definition spawn (t : Task) (h : Hook) : Hook :=
  set_tasks (tasks h ++ [Some t]) h.

(** The async function returns: its task is over. *)
Definition finish (i : nat) (h : Hook) : Hook :=
  set_tasks (<[i := None]> (tasks h)) h.

Definition clear_timer (i : nat) (h : Hook) : Hook :=
  set_timers (<[i := None]> (timers h)) h.

(** The entries appended to the [URLSearchParams] of a [fetchProducts]
    request. *)
Definition fetch_query (params : JsObject) : list (string * string) :=
  omap (fun kv =>
          match kv.2 with
          | JUndefined | JNull => None
          | JObj _ | JArr _ =>
              Some (kv.1, default "undefined" (JSON_stringify kv.2))
          | v => Some (kv.1, js_String v)
          end) params.

(** The entries of the [URLSearchParams] of a [loadMore] request. *)
Definition loadMore_query (params : JsObject) : list (string * string) :=
  map (fun kv => (kv.1, js_String kv.2)) params.

Definition error_message (e : Thrown) : string :=
  match e with
  | ThrownError _ m => m
  | ThrownString s => s
  | ThrownOther => "An unexpected error occurred"
  end.

(** [handleError(error, retryFn)]; the retry closure is given by the
    argument and the [state.loading] of the [fetchProducts] it calls. *)
Definition handleError (e : Thrown) (retryFn : option (JsObject * bool)) (h : Hook)
  : Hook :=
  let h :=
    set_state (fun prev =>
      {| products := products prev; loading := false;
         error := Some (error_message e); pagination := pagination prev;
         lastFetchTime := lastFetchTime prev |}) h in
  match retryFn, retryTimeoutRef h with
  | Some (params, closure_loading), None =>
      set_retryTimeoutRef (Some (length (timers h)))
        (set_timers (timers h ++ [Some (RetryTimer 2000 params closure_loading)]) h)
  | _, _ => h
  end.

(** [fetchProducts(params)] up to [await fetch(...)], called through a
    closure created when [state.loading] was [closure_loading]. *)
Definition fetchProducts (params : JsObject) (closure_loading : bool) (now : Z)
  (h : Hook) : Hook :=
  let h := abort_current h in
  let (cachedData, pc) := ProductsCache.get (productsCache h) params now in
  let h := set_cache pc (arrays h) h in
  match cachedData, closure_loading with
  | Some cached, false =>
      set_state (fun prev =>
        {| products := cached; loading := loading prev; error := None;
           pagination := pagination prev; lastFetchTime := Some now |}) h
  | _, _ =>
      let c := length (signals h) in
      let h := new_controller h in
      let h :=
        set_state (fun prev =>
          {| products := products prev; loading := true; error := None;
             pagination := pagination prev;
             lastFetchTime := lastFetchTime prev |}) h in
      spawn {| kind := FetchProductsTask params c closure_loading;
               awaiting := AwaitFetch;
               query := fetch_query params |} h
  end.

(** The [catch] block of [fetchProducts]. *)
Definition fetchProducts_catch (e : Thrown) (params : JsObject)
  (closure_loading : bool) (h : Hook) : Hook :=
  match e with
  | ThrownError name _ =>
      if String.eqb name "AbortError" then h
      else handleError e (Some (params, closure_loading)) h
  | _ => handleError e (Some (params, closure_loading)) h
  end.

(** The rest of [fetchProducts] after a successfully parsed body. *)
Definition fetchProducts_apply (params : JsObject) (closure_loading : bool)
  (body : PaginatedProductResponse) (now : Z) (h : Hook) : Hook :=
  if negb (success body) then
    fetchProducts_catch
      (ThrownError "Error" (string_or (message body) "Failed to fetch products"))
      params closure_loading h
  else
    let (fetched, m) := array_alloc (default [] (data_data body)) (arrays h) in
    let (m, pc) := ProductsCache.set (productsCache h) m params fetched now in
    set_state (fun prev =>
      {| products := fetched; loading := false; error := None;
         pagination := data_pagination body; lastFetchTime := Some now |})
      (set_cache pc m h).

(** Resuming the task [i] of a [fetchProducts] call with what the awaited
    promise settled to. [fetch] and [response.json()] reject with an
    [AbortError] once the signal is aborted, whatever the server sent. *)
Definition resume_fetchProducts (i : nat) (t : Task) (params : JsObject)
  (c : nat) (closure_loading : bool) (o : Settled) (now : Z) (h : Hook) : Hook :=
  let o := if aborted h c then Rejected AbortError else o in
  match awaiting t, o with
  | _, Rejected e => fetchProducts_catch e params closure_loading (finish i h)
  | AwaitFetch, Responded ok status =>
      if ok then
        set_tasks (<[i := Some {| kind := kind t; awaiting := AwaitJson;
                                  query := query t |}]> (tasks h)) h
      else fetchProducts_catch (http_error status) params closure_loading
             (finish i h)
  | AwaitJson, Parsed body =>
      fetchProducts_apply params closure_loading body now (finish i h)
  | _, _ => h
  end.

(** [loadMore()] up to [await fetch(...)]. *)
Definition loadMore (h : Hook) : Hook :=
  match seen_pagination h with
  | Some pg =>
      if negb (has_next_page pg) || seen_loading h then h
      else
        let nextPageParams :=
          obj_spread (seen_params h)
            [("page", JNum (number_or_zero (current_page pg) + 1))] in
        let h :=
          set_state (fun prev =>
            {| products := products prev; loading := true; error := error prev;
               pagination := pagination prev;
               lastFetchTime := lastFetchTime prev |}) h in
        spawn {| kind := LoadMoreTask; awaiting := AwaitFetch;
                 query := loadMore_query nextPageParams |} h
  | None => h
  end.

(** The rest of [loadMore] after a successfully parsed body. *)
Definition loadMore_apply (body : PaginatedProductResponse) (h : Hook) : Hook :=
  match success body, data_data body with
  | true, Some more =>
      let (appended, m) :=
        array_alloc (array_read (arrays h) (products (state h)) ++ more)
          (arrays h) in
      set_state (fun prev =>
        {| products := appended; loading := false; error := None;
           pagination := data_pagination body;
           lastFetchTime := lastFetchTime prev |})
        (set_cache (productsCache h) m h)
  | _, _ => h
  end.

Definition resume_loadMore (i : nat) (t : Task) (o : Settled) (h : Hook) : Hook :=
  match awaiting t, o with
  | _, Rejected e => handleError e None (finish i h)
  | AwaitFetch, Responded ok status =>
      if ok then
        set_tasks (<[i := Some {| kind := kind t; awaiting := AwaitJson;
                                  query := query t |}]> (tasks h)) h
      else handleError (http_error status) None (finish i h)
  | AwaitJson, Parsed body => loadMore_apply body (finish i h)
  | _, _ => h
  end.

(** The environment settles the promise awaited by task [i]. *)
Definition settle (i : nat) (o : Settled) (now : Z) (h : Hook) : Hook :=
  match tasks h !! i with
  | Some (Some t) =>
      match kind t with
      | FetchProductsTask params c closure_loading =>
          resume_fetchProducts i t params c closure_loading o now h
      | LoadMoreTask => resume_loadMore i t o h
      end
  | _ => h
  end.

(** [refetch()]. *)
Definition refetch (now : Z) (h : Hook) : Hook :=
  fetchProducts (seen_params h) (seen_loading h) now h.

(** [updateSearchParams(newParams)]. *)
Definition updateSearchParams (newParams : JsObject) (h : Hook) : Hook :=
  set_searchParams (obj_spread (searchParams h) newParams) h.

(** [clearCache()]. *)
Definition clearCache (h : Hook) : Hook :=
  set_cache (ProductsCache.clear (productsCache h)) (arrays h) h.

(** *** Effects *)

Definition refresh_enabled (cfg : UseProductsConfig) : bool :=
  match refreshInterval cfg with
  | Some n => negb (n =? 0) && (0 <? n)
  | None => false
  end.

(** The auto-refresh effect and its cleanup. *)
Definition refresh_effect (cfg : UseProductsConfig) (h : Hook) : Hook :=
  if refresh_enabled cfg then
    set_refreshIntervalRef (Some (length (timers h)))
      (set_timers
         (timers h ++ [Some (RefreshTimer (default 0 (refreshInterval cfg))
                               (seen_params h) (seen_loading h))]) h)
  else h.

Definition refresh_cleanup (cfg : UseProductsConfig) (h : Hook) : Hook :=
  if refresh_enabled cfg then
    match refreshIntervalRef h with
    | Some i => clear_timer i h
    | None => h
    end
  else h.

(** The initial-fetch effect and its cleanup. *)
Definition fetch_effect (cfg : UseProductsConfig) (now : Z) (h : Hook) : Hook :=
  if autoFetch cfg then fetchProducts (seen_params h) (seen_loading h) now h
  else h.

Definition fetch_cleanup (h : Hook) : Hook :=
  let h := abort_current h in
  let h := match refreshIntervalRef h with
           | Some i => clear_timer i h
           | None => h
           end in
  match retryTimeoutRef h with
  | Some i => clear_timer i h
  | None => h
  end.

(** The first render of the hook: [useState], [useRef], and the effects
    run once. The module-wide [productsCache] may already hold entries. *)
Definition mount (cfg : UseProductsConfig) (entries : gmap string CacheEntry)
  (m : Store) (now : Z) : Hook :=
  let (empty, m) := array_alloc [] m in
  let h :=
    {| state := {| products := empty; loading := autoFetch cfg; error := None;
                   pagination := None; lastFetchTime := None |};
       searchParams := initialParams cfg;
       seen_loading := autoFetch cfg; seen_pagination := None;
       seen_params := initialParams cfg; params_dirty := false;
       abortControllerRef := None; refreshIntervalRef := None;
       retryTimeoutRef := None; signals := []; tasks := []; timers := [];
       productsCache := {| ProductsCache.cache := entries;
                           ProductsCache.timeout := 5 * 60 * 1000 |};
       arrays := m |} in
  fetch_effect cfg now (refresh_effect cfg h).

(** A later render. [fetchProducts] and [refetch] are new functions when
    [state.loading] or [searchParams] changed; then the two effects that
    depend on them are cleaned up and run again. *)
Definition render (cfg : UseProductsConfig) (now : Z) (h : Hook) : Hook :=
  let changed :=
    negb (eqb (loading (state h)) (seen_loading h)) || params_dirty h in
  let h := commit h in
  if changed then
    fetch_effect cfg now
      (refresh_effect cfg (fetch_cleanup (refresh_cleanup cfg h)))
  else h.

(** The retry timer [i] or the refresh interval [i] fires. *)
Definition timer_fires (i : nat) (now : Z) (h : Hook) : Hook :=
  match timers h !! i with
  | Some (Some (RetryTimer _ params closure_loading)) =>
      fetchProducts params closure_loading now
        (set_retryTimeoutRef None (clear_timer i h))
  | Some (Some (RefreshTimer _ params closure_loading)) =>
      fetchProducts params closure_loading now h
  | _ => h
  end.

(** ** The hook as a transition system *)

Inductive Event :=
| Render (now : Z)
| Refetch (now : Z)
| LoadMore
| UpdateSearchParams (newParams : JsObject)
| ClearCache
| Settle (task : nat) (o : Settled) (now : Z)
| TimerFires (timer : nat) (now : Z).

Definition step (cfg : UseProductsConfig) (ev : Event) (h : Hook) : Hook :=
  match ev with
  | Render now => render cfg now h
  | Refetch now => refetch now h
  | LoadMore => loadMore h
  | UpdateSearchParams newParams => updateSearchParams newParams h
  | ClearCache => clearCache h
  | Settle i o now => settle i o now h
  | TimerFires i now => timer_fires i now h
  end.

Definition run (cfg : UseProductsConfig) (evs : list Event) (h : Hook) : Hook :=
  foldl (fun h ev => step cfg ev h) h evs.

Inductive reachable (cfg : UseProductsConfig) : Hook → Prop :=
| reachable_mount entries m now : reachable cfg (mount cfg entries m now)
| reachable_step ev h : reachable cfg h → reachable cfg (step cfg ev h).

(** ** productService.fetchProducts and the useProductsPage hook *)

Module ProductsPage.

(** [ApiResponse<Product[]>] as the page hook reads it. *)
Record ApiResponse := {
  success : bool;
  data : list Product;
  message : option string;
}.

(** How the request of the service settles: [fetch] rejects, or it resolves
    with a response whose body is then parsed or fails to parse. *)
Inductive BodySettled :=
| BodyParsed (r : ApiResponse)
| BodyRejected (reason : Thrown).

Inductive FetchSettled :=
| FetchRejected (reason : Thrown)
| FetchResponded (ok : bool) (status : Z) (body : BodySettled).

(** What an [await productService.fetchProducts()] gives its caller. *)
Inductive ServiceResult :=
| Returned (r : ApiResponse)
| Threw (e : Thrown).

(** The [catch] block of the service: whatever was thrown is thrown again as
    a new [Error]. *)
Definition service_rethrow (e : Thrown) : ServiceResult :=
  Threw (ThrownError "Error"
           match e with
           | ThrownError _ m => m
           | _ => "Failed to fetch products"
           end).

(** [productService.fetchProducts()]. *)
Definition fetchProducts (o : FetchSettled) : ServiceResult :=
  match o with
  | FetchRejected e => service_rethrow e
  | FetchResponded false status _ => service_rethrow (http_error status)
  | FetchResponded true _ (BodyRejected e) => service_rethrow e
  | FetchResponded true _ (BodyParsed r) => Returned r
  end.

(** The four [useState] cells of [useProductsPage]. *)
Record State := {
  products : list Product;
  loading : bool;
  error : option string;
  lastUpdated : option Z;
}.

Definition initial : State :=
  {| products := []; loading := true; error := None; lastUpdated := None |}.

(** The [catch] block of the hook's [fetchProducts]. *)
Definition fetch_catch (e : Thrown) (s : State) : State :=
  {| products := products s; loading := loading s;
     error := Some match e with
                   | ThrownError _ m => m
                   | _ => "An unknown error occurred"
                   end;
     lastUpdated := lastUpdated s |}.

(** The hook's [fetchProducts] up to its [await]: [setError(null)]. *)
Definition fetch_start (s : State) : State :=
  {| products := products s; loading := loading s; error := None;
     lastUpdated := lastUpdated s |}.

(** The rest of it, once the service call has settled at time [now]. *)
Definition fetch_finish (r : ServiceResult) (now : Z) (s : State) : State :=
  let s :=
    match r with
    | Returned resp =>
        if success resp then
          {| products := data resp; loading := loading s; error := error s;
             lastUpdated := Some now |}
        else
          fetch_catch
            (ThrownError "Error"
               (string_or (message resp) "Failed to fetch products")) s
    | Threw e => fetch_catch e s
    end in
  {| products := products s; loading := false; error := error s;
     lastUpdated := lastUpdated s |}.

(** [refresh()] up to the [await] of the fetch it starts. *)
Definition refresh (s : State) : State :=
  fetch_start {| products := products s; loading := true; error := error s;
                 lastUpdated := lastUpdated s |}.

(** One fetch from its call to its end. *)
Definition fetch (o : FetchSettled) (now : Z) (s : State) : State :=
  fetch_finish (fetchProducts o) now (fetch_start s).

End ProductsPage.

(** ** ErrorBoundary: retries and reset keys *)

Module ErrorBoundary.

(** A reset key is a string or a number. *)
Inductive Key := KStr (s : string) | KNum (n : Z).

(** [a !== b], where [b] may be [undefined] (reading past the end of the
    previous keys). *)
Definition key_differs (a : Key) (b : option Key) : bool :=
  match a, b with
  | KStr s, Some (KStr s') => negb (String.eqb s s')
  | KNum n, Some (KNum n') => negb (n =? n')
  | _, _ => true
  end.

(** [keys.some((key, index) => key !== prevKeys[index])], from [index]. *)
Fixpoint some_differs (index : nat) (keys prevKeys : list Key) : bool :=
  match keys with
  | [] => false
  | key :: rest =>
      key_differs key (prevKeys !! index)
      || some_differs (S index) rest prevKeys
  end.

(** [hasResetKeysChanged(prevResetKeys)], the current keys being
    [this.props.resetKeys]; [None] is an absent prop. *)
Definition hasResetKeysChanged (resetKeys prevResetKeys : option (list Key))
  : bool :=
  let keys := default [] resetKeys in
  let prevKeys := default [] prevResetKeys in
  if negb (length keys =? length prevKeys)%nat then true
  else some_differs 0 keys prevKeys.

Record State := {
  hasError : bool;
  error : option Thrown;
  errorId : option string;
  retryCount : Z;
}.

Definition initial : State :=
  {| hasError := false; error := None; errorId := None; retryCount := 0 |}.

(** [getDerivedStateFromError(error)] merged into the state; the id is made
    from the clock and a random number. *)
Definition getDerivedStateFromError (e : Thrown) (id : string) (s : State)
  : State :=
  {| hasError := true; error := Some e; errorId := Some id;
     retryCount := retryCount s |}.

(** [resetErrorBoundary()]. *)
Definition resetErrorBoundary (s : State) : State := initial.

(** [handleRetry()]: the new state, and whether the reset was scheduled
    (after 1000 ms). The [maxRetries] prop defaults to 3 when absent. *)
Definition handleRetry (maxRetries : option Z) (s : State) : State * bool :=
  let maxRetries := default 3 maxRetries in
  if maxRetries <=? retryCount s then (s, false)
  else ({| hasError := hasError s; error := error s; errorId := errorId s;
           retryCount := retryCount s + 1 |}, true).

(** The [disabled] attribute of the retry button:
    [retryCount >= (this.props.maxRetries || 3)]. *)
Definition retry_disabled (maxRetries : option Z) (s : State) : bool :=
  let limit := match maxRetries with
               | Some n => if n =? 0 then 3 else n
               | None => 3
               end in
  limit <=? retryCount s.

(** A click on the retry button, when it is enabled, and then the scheduled
    reset, if any. *)
Definition retry_cycle (maxRetries : option Z) (s : State) : State :=
  if retry_disabled maxRetries s then s
  else
    let (s', scheduled) := handleRetry maxRetries s in
    if scheduled then resetErrorBoundary s' else s'.

End ErrorBoundary.

(** ** Application configuration *)

Module Config.

Record EnvironmentConfig := {
  NODE_ENV : string;
  NEXT_PUBLIC_API_URL : string;
  NEXT_PUBLIC_APP_NAME : string;
  NEXT_PUBLIC_APP_VERSION : string;
}.

(** [config[variable]]. *)
Definition config_get (config : EnvironmentConfig) (variable : string)
  : option string :=
  if String.eqb variable "NODE_ENV" then Some (NODE_ENV config)
  else if String.eqb variable "NEXT_PUBLIC_API_URL" then
    Some (NEXT_PUBLIC_API_URL config)
  else if String.eqb variable "NEXT_PUBLIC_APP_NAME" then
    Some (NEXT_PUBLIC_APP_NAME config)
  else if String.eqb variable "NEXT_PUBLIC_APP_VERSION" then
    Some (NEXT_PUBLIC_APP_VERSION config)
  else None.

(** The loop over the required variables: the first one that is missing or
    empty gives the error. *)
Fixpoint check_required (config : EnvironmentConfig) (requiredVars : list string)
  : option Thrown :=
  match requiredVars with
  | [] => None
  | variable :: rest =>
      let missing := match config_get config variable with
                     | Some value => String.eqb value ""
                     | None => true
                     end in
      if missing
      then Some (ThrownError "Error"
                   ("Missing required environment variable: " +:+ variable))
      else check_required config rest
  end.

(** [validateEnvironment()], over [process.env]. *)
Definition validateEnvironment (env : string → option string)
  : Thrown + EnvironmentConfig :=
  let config :=
    {| NODE_ENV := string_or (env "NODE_ENV") "development";
       NEXT_PUBLIC_API_URL :=
         string_or (env "NEXT_PUBLIC_API_URL") "http://localhost:8000";
       NEXT_PUBLIC_APP_NAME :=
         string_or (env "NEXT_PUBLIC_APP_NAME") "Web Scraping Service";
       NEXT_PUBLIC_APP_VERSION :=
         string_or (env "NEXT_PUBLIC_APP_VERSION") "1.0.0" |} in
  if String.eqb (NODE_ENV config) "production" then
    match check_required config ["NEXT_PUBLIC_API_URL"] with
    | Some e => inl e
    | None => inr config
    end
  else inr config.

(** [s.replace(/^\//, "")]. *)
Definition strip_leading_slash (s : string) : string :=
  match s with
  | String c rest => if Ascii.eqb c "/" then rest else s
  | EmptyString => s
  end.

(** [s.replace(/\/$/, "")]. *)
Fixpoint strip_trailing_slash (s : string) : string :=
  match s with
  | EmptyString => EmptyString
  | String c EmptyString => if Ascii.eqb c "/" then EmptyString else s
  | String c rest => String c (strip_trailing_slash rest)
  end.

(** [buildApiUrl(endpoint)], the base being
    [APP_CONFIG.NEXT_PUBLIC_API_URL]. *)
Definition buildApiUrl (apiUrl endpoint : string) : string :=
  strip_trailing_slash apiUrl +:+ "/" +:+ strip_leading_slash endpoint.

End Config.

(** ** Notions used to state the properties *)

(** Induction on values, through the arrays and objects they nest. *)
Fixpoint JsValue_ind (P : JsValue → Prop)
  (Hundefined : P JUndefined) (Hnull : P JNull)
  (Hbool : ∀ b, P (JBool b)) (Hnum : ∀ n, P (JNum n)) (Hstr : ∀ s, P (JStr s))
  (Harr : ∀ xs, Forall P xs → P (JArr xs))
  (Hobj : ∀ fs, Forall (fun kv => P kv.2) fs → P (JObj fs))
  (v : JsValue) {struct v} : P v :=
  let rec := JsValue_ind P Hundefined Hnull Hbool Hnum Hstr Harr Hobj in
  match v with
  | JUndefined => Hundefined
  | JNull => Hnull
  | JBool b => Hbool b
  | JNum n => Hnum n
  | JStr s => Hstr s
  | JArr xs =>
      Harr xs ((fix all (l : list JsValue) : Forall P l :=
                  match l with
                  | [] => @List.Forall_nil _ P
                  | x :: l' => @List.Forall_cons _ P x l' (rec x) (all l')
                  end) xs)
  | JObj fs =>
      Hobj fs ((fix all (l : list (string * JsValue))
                  : Forall (fun kv => P kv.2) l :=
                  match l with
                  | [] => @List.Forall_nil _ (fun kv => P kv.2)
                  | kv :: l' => @List.Forall_cons _ (fun kv => P kv.2) kv l' (rec kv.2) (all l')
                  end) fs)
  end.

(** The effective value of a field: absent, [undefined] and [null] are the
    same thing to the reader of a parameter object. *)
Definition effective (v : JsValue) : option JsValue :=
  match v with
  | JUndefined | JNull => None
  | _ => Some v
  end.

(** Two parameter objects are field-wise equal when every field has the same
    effective value in both, whatever the order of insertion. *)
Definition fieldwise_equal (p1 p2 : JsObject) : Prop :=
  ∀ k, effective (obj_get k p1) = effective (obj_get k p2).

(** What is left of a value once the properties that hold [undefined] are
    dropped from its objects, and [undefined] elements of its arrays are read
    as [null]. *)
Fixpoint defined_part (v : JsValue) : JsValue :=
  match v with
  | JArr xs =>
      JArr (map (fun x => match x with
                          | JUndefined => JNull
                          | _ => defined_part x
                          end) xs)
  | JObj fs =>
      JObj (omap (fun kv => match kv.2 with
                            | JUndefined => None
                            | _ => Some (kv.1, defined_part kv.2)
                            end) fs)
  | _ => v
  end.

(** *** Sample data *)

Definition phone_params : JsObject := [("query", JStr "phone")].

Definition query_then_page : JsObject := [("query", JStr "phone"); ("page", JNum 1)].
Definition page_then_query : JsObject := [("page", JNum 1); ("query", JStr "phone")].
Definition null_query : JsObject := [("query", JNull)].
Definition undefined_sort : JsObject := [("query", JStr "phone"); ("sort", JUndefined)].

Definition sample_product (n : Z) (name : string) : Product :=
  {| id := n; title := name; price := 100 * n; image_url := None;
     description := None; category := None; brand := None;
     availability := None; status := active;
     created_at := "2024-01-01T00:00:00Z";
     updated_at := "2024-01-01T00:00:00Z" |}.

Definition phone_a : Product := sample_product 1 "phone a".
Definition phone_b : Product := sample_product 2 "phone b".
Definition phone_c : Product := sample_product 3 "phone c".

(** *** Requests in flight *)

(** The controller whose signal a pending task gave to [fetch], if any. *)
Definition controller_of (slot : option Task) : option nat :=
  match slot with
  | Some t => match kind t with
              | FetchProductsTask _ c _ => Some c
              | LoadMoreTask => None
              end
  | None => None
  end.

(** Task [i] is pending and nothing has cancelled its request. *)
Definition in_flight (h : Hook) (i : nat) : Prop :=
  ∃ t, tasks h !! i = Some (Some t) ∧
       match kind t with
       | FetchProductsTask _ c _ => aborted h c = false
       | LoadMoreTask => True
       end.

(** The same, as a test. *)
Definition in_flightb (h : Hook) (i : nat) : bool :=
  match tasks h !! i with
  | Some (Some t) =>
      match kind t with
      | FetchProductsTask _ c _ => negb (aborted h c)
      | LoadMoreTask => true
      end
  | _ => false
  end.

(** Task [i] is a pending call of [fetchProducts] whose request has not been
    cancelled. *)
Definition live_fetch (h : Hook) (i : nat) : Prop :=
  ∃ c, controller_of <$> tasks h !! i = Some (Some c) ∧ aborted h c = false.

(** The retry timer [i] is armed. *)
Definition retry_pending (h : Hook) (i : nat) : Prop :=
  ∃ delay params l, timers h !! i = Some (Some (RetryTimer delay params l)).

(** *** Invariants of the reachable states *)

(** Controllers, signals and tasks: the controller in the ref exists; the
    controller of a pending [fetchProducts] call exists and is the one in the
    ref unless it is aborted; no two pending calls share a controller. *)
Definition ctl_inv (r : option nat) (sg : list bool) (ts : list (option Task))
  : Prop :=
  (∀ c, r = Some c → (c < length sg)%nat) ∧
  (∀ i c, controller_of <$> ts !! i = Some (Some c) →
          (c < length sg)%nat ∧ (r = Some c ∨ sg !! c = Some true)) ∧
  (∀ i j c, controller_of <$> ts !! i = Some (Some c) →
            controller_of <$> ts !! j = Some (Some c) → i = j).

Definition controllers_ok (h : Hook) : Prop :=
  ctl_inv (abortControllerRef h) (signals h) (tasks h).

(** An armed retry timer is the one in [retryTimeoutRef]. *)
Definition retry_inv (r : option nat) (tm : list (option Timer)) : Prop :=
  ∀ i delay params l,
    tm !! i = Some (Some (RetryTimer delay params l)) → r = Some i.

Definition retry_ok (h : Hook) : Prop :=
  retry_inv (retryTimeoutRef h) (timers h).

(** *** How the tasks and signals move

    A slot of the task table keeps its kind until the task is over, and is
    never reused; an aborted signal stays aborted. *)
Definition slot_evolves (before after : option Task) : Prop :=
  after = None ∨
  ∃ t t', before = Some t ∧ after = Some t' ∧ kind t' = kind t.

Definition adv (sg : list bool) (ts : list (option Task))
  (sg' : list bool) (ts' : list (option Task)) : Prop :=
  (∀ c, sg !! c = Some true → sg' !! c = Some true) ∧
  (∀ i slot, ts !! i = Some slot →
             ∃ slot', ts' !! i = Some slot' ∧ slot_evolves slot slot').

Definition advances (h h' : Hook) : Prop :=
  adv (signals h) (tasks h) (signals h') (tasks h').

(** The hook as the page uses it by default: no initial parameters, fetch on
    mount, no refresh interval. *)
Definition default_config : UseProductsConfig :=
  {| initialParams := []; autoFetch := true; refreshInterval := None |}.

Definition manual_config : UseProductsConfig :=
  {| initialParams := []; autoFetch := false; refreshInterval := None |}.

Definition first_page : PaginationMetadata :=
  {| current_page := 1; last_page := 2; per_page := 2; total := 3;
     has_next_page := true; has_previous_page := false |}.

Definition second_page : PaginationMetadata :=
  {| current_page := 2; last_page := 2; per_page := 2; total := 3;
     has_next_page := false; has_previous_page := true |}.

Definition first_page_body : PaginatedProductResponse :=
  {| success := true; message := None;
     data_data := Some [phone_a; phone_b];
     data_pagination := Some first_page |}.

Definition second_page_body : PaginatedProductResponse :=
  {| success := true; message := None;
     data_data := Some [phone_c];
     data_pagination := Some second_page |}.

Definition failure_body : PaginatedProductResponse :=
  {| success := false; message := Some "rate limited";
     data_data := None; data_pagination := None |}.

(** The hook mounted with the default configuration at time 0 on an empty
    cache, its first request answered with the first page, and rendered. *)
Definition settled_hook : Hook :=
  run default_config
    [Settle 0 (Responded true 200) 10; Settle 0 (Parsed first_page_body) 20;
     Render 21; Render 22]
    (mount default_config ∅ [] 0).

(** The request that [fetchProducts(params)] issues. *)
Definition fetch_task (params : JsObject) (c : nat) (closure_loading : bool)
  : Task :=
  {| kind := FetchProductsTask params c closure_loading;
     awaiting := AwaitFetch; query := fetch_query params |}.

(** What the continuation of a request can touch besides the task table:
    the state, the parameters, the cache, the arrays, the timers, the refs
    and the signals. *)
Definition applied (h : Hook) :=
  (state h, searchParams h, productsCache h, arrays h, timers h,
   retryTimeoutRef h, signals h, abortControllerRef h).

(** A thrown value that the [catch] block of [fetchProducts] takes for a
    cancellation: an [Error] named [AbortError]. *)
Definition is_abort (e : Thrown) : bool :=
  match e with
  | ThrownError name _ => String.eqb name "AbortError"
  | _ => false
  end.

(** What [fetchProducts] appends to the query for a value that is neither
    [undefined] nor [null]. *)
Definition query_value (v : JsValue) : string :=
  match v with
  | JObj _ | JArr _ => default "undefined" (JSON_stringify v)
  | _ => js_String v
  end.

(** The refresh interval: an armed interval is the one in
    [refreshIntervalRef], it was armed with the configured period, and its
    callback is the [refetch] of the last render. Besides, the parameters
    seen by the last render are the current ones unless an update is
    waiting for a render. *)
Definition refresh_ok (cfg : UseProductsConfig) (h : Hook) : Prop :=
  (∀ i n p l, timers h !! i = Some (Some (RefreshTimer n p l)) →
     refreshIntervalRef h = Some i ∧ refreshInterval cfg = Some n ∧ 0 < n ∧
     p = seen_params h ∧ l = seen_loading h) ∧
  (params_dirty h = false → searchParams h = seen_params h).

(** No interval is armed in [tm'] that was not armed in [tm]. *)
Definition no_new_refresh (tm tm' : list (option Timer)) : Prop :=
  ∀ i n p l, tm' !! i = Some (Some (RefreshTimer n p l)) →
             tm !! i = Some (Some (RefreshTimer n p l)).

(** What the interval's invariant reads of the hook, besides the timers. *)
Definition refresh_view (h : Hook) :=
  (refreshIntervalRef h, seen_params h, seen_loading h, searchParams h,
   params_dirty h).

(** The configuration of the products page: [autoFetch: true],
    [refreshInterval: 30000]. *)
Definition page_config (params : JsObject) : UseProductsConfig :=
  {| initialParams := params; autoFetch := true; refreshInterval := Some 30000 |}.

(** * Properties *)

(** ** The cache key *)

Example stringify_demo :
  JSON_stringify (JObj [("query", JStr "phone"); ("page", JNum 2);
                        ("sort", JUndefined); ("filters", JObj [("brand", JArr [JStr "a"; JNull])])])
  = Some ("{" +:+ dquote +:+ "query" +:+ dquote +:+ ":" +:+ dquote +:+ "phone" +:+ dquote
          +:+ "," +:+ dquote +:+ "page" +:+ dquote +:+ ":2,"
          +:+ dquote +:+ "filters" +:+ dquote +:+ ":{" +:+ dquote +:+ "brand" +:+ dquote
          +:+ ":[" +:+ dquote +:+ "a" +:+ dquote +:+ ",null]}}").
Proof. reflexivity. Qed.

Lemma generateKey_stringify params :
  JSON_stringify (JObj params) = Some (ProductsCache.generateKey params).
Proof. reflexivity. Qed.

Lemma omap_cons_eq {A B} (f : A → option B) a l :
  omap f (a :: l)
  = match f a with Some y => y :: omap f l | None => omap f l end.
Proof. reflexivity. Qed.

Lemma stringify_defined_elements xs :
  Forall (fun x => JSON_stringify (defined_part x) = JSON_stringify x) xs →
  map (fun x => default "null" (JSON_stringify x))
      (map (fun x => match x with
                     | JUndefined => JNull
                     | _ => defined_part x
                     end) xs)
  = map (fun x => default "null" (JSON_stringify x)) xs.
Proof.
  induction 1 as [ | x xs Hx _ IHxs ]; [ done | ].
  simpl. rewrite IHxs. f_equal.
  destruct x; try reflexivity; by rewrite Hx.
Qed.

Lemma stringify_defined_members (fs : JsObject) :
  Forall (fun kv => JSON_stringify (defined_part kv.2) = JSON_stringify kv.2) fs →
  omap (fun kv => json_member kv.1 <$> JSON_stringify kv.2)
       (omap (fun kv => match kv.2 with
                        | JUndefined => None
                        | _ => Some (kv.1, defined_part kv.2)
                        end) fs)
  = omap (fun kv => json_member kv.1 <$> JSON_stringify kv.2) fs.
Proof.
  induction 1 as [ | [k x] fs Hx _ IHfs ]; [ done | ].
  rewrite (omap_cons_eq _ (k, x)). cbn [fst snd] in *.
  destruct x; rewrite ?omap_cons_eq; cbn [fst snd]; rewrite ?Hx, IHfs;
    reflexivity.
Qed.

Lemma stringify_defined_part v :
  JSON_stringify (defined_part v) = JSON_stringify v.
Proof.
  induction v as [ | | b | n | s | xs IH | fs IH ] using JsValue_ind;
    try reflexivity; simpl.
  - by rewrite stringify_defined_elements.
  - by rewrite stringify_defined_members.
Qed.

(** C2, as amended: parameter objects that have the same defined fields with
    the same values in the same insertion order get the same cache key; a
    field holding [undefined] counts as absent, at any depth. *)
Theorem generateKey_same_defined_fields (p1 p2 : JsObject) :
  defined_part (JObj p1) = defined_part (JObj p2) →
  ProductsCache.generateKey p1 = ProductsCache.generateKey p2.
Proof.
  intros Heq. unfold ProductsCache.generateKey.
  rewrite <- (stringify_defined_part (JObj p1)),
          <- (stringify_defined_part (JObj p2)).
  by rewrite Heq.
Qed.

Lemma generateKey_same_defined_fields_witness :
  undefined_sort ≠ phone_params ∧
  ProductsCache.generateKey undefined_sort = ProductsCache.generateKey phone_params.
Proof.
  split; [ discriminate | ].
  apply (generateKey_same_defined_fields undefined_sort phone_params).
  reflexivity.
Defined.

Lemma fieldwise_equal_reorder : fieldwise_equal query_then_page page_then_query.
Proof.
  intros k. unfold query_then_page, page_then_query. simpl.
  destruct (String.eqb_spec k "query") as [-> | _]; [ reflexivity | ].
  destruct (String.eqb_spec k "page"); reflexivity.
Qed.

Lemma fieldwise_equal_null_absent : fieldwise_equal null_query [].
Proof.
  intros k. unfold null_query. simpl.
  destruct (String.eqb k "query"); reflexivity.
Qed.

(** C2, as stated, fails: the key follows the insertion order of the fields,
    and a field holding [null] is written out while an absent one is not. *)
Lemma generateKey_not_canonical :
  (wf_object query_then_page ∧ wf_object page_then_query ∧
   fieldwise_equal query_then_page page_then_query ∧
   ProductsCache.generateKey query_then_page
     ≠ ProductsCache.generateKey page_then_query) ∧
  (wf_object null_query ∧ fieldwise_equal null_query [] ∧
   ProductsCache.generateKey null_query ≠ ProductsCache.generateKey []).
Proof.
  split; [ split; [ | split; [ | split ] ] | split; [ | split ] ].
  - unfold wf_object. compute_done.
  - unfold wf_object. compute_done.
  - apply fieldwise_equal_reorder.
  - vm_compute. discriminate.
  - unfold wf_object. compute_done.
  - apply fieldwise_equal_null_absent.
  - vm_compute. discriminate.
Qed.

(** ** Expiry of cache entries *)

Lemma set_stores_copy pc m params items now :
  let stored := ProductsCache.set pc m params items now in
  ProductsCache.cache stored.2 !! ProductsCache.generateKey params
    = Some {| data := length m; timestamp := now |} ∧
  ProductsCache.timeout stored.2 = ProductsCache.timeout pc ∧
  array_read stored.1 (length m) = array_read m items ∧
  (∀ a, a < length m → array_read stored.1 a = array_read m a)%nat.
Proof.
  simpl. repeat split.
  - apply lookup_insert_eq.
  - unfold array_read. by rewrite lookup_app_r, Nat.sub_diag.
  - intros a Ha. unfold array_read. by rewrite lookup_app_l.
Qed.

Lemma get_live pc params now e :
  ProductsCache.cache pc !! ProductsCache.generateKey params = Some e →
  now - timestamp e ≤ ProductsCache.timeout pc →
  ProductsCache.get pc params now = (Some (data e), pc).
Proof.
  intros He Hlive. unfold ProductsCache.get. rewrite He.
  destruct (Z.gtb_spec (now - timestamp e) (ProductsCache.timeout pc)); [ lia | done ].
Qed.

Lemma get_expired pc params now e :
  ProductsCache.cache pc !! ProductsCache.generateKey params = Some e →
  now - timestamp e > ProductsCache.timeout pc →
  ProductsCache.get pc params now
  = (None, {| ProductsCache.cache :=
                delete (ProductsCache.generateKey params) (ProductsCache.cache pc);
              ProductsCache.timeout := ProductsCache.timeout pc |}).
Proof.
  intros He Hdead. unfold ProductsCache.get. rewrite He.
  destruct (Z.gtb_spec (now - timestamp e) (ProductsCache.timeout pc)); [ done | lia ].
Qed.

(** C3: an entry stored at time [t] is served, with the items it was stored
    with, as long as [now - t <= ttl]; once [now - t > ttl] the lookup
    returns nothing and removes the entry. With the default TTL of 300000 ms
    and an entry stored at 0, the lookup at 299999 returns the items and the
    lookup at 300001 returns nothing and leaves the cache without the
    entry. *)
Theorem cache_entry_served_until_ttl :
  (∀ pc m params items t now,
     let stored := ProductsCache.set pc m params items t in
     (now - t ≤ ProductsCache.timeout pc →
        ∃ a, ProductsCache.get stored.2 params now = (Some a, stored.2) ∧
             array_read stored.1 a = array_read m items) ∧
     (now - t > ProductsCache.timeout pc →
        ∃ pc', ProductsCache.get stored.2 params now = (None, pc') ∧
               ProductsCache.cache pc' !! ProductsCache.generateKey params = None)) ∧
  (let stored :=
     ProductsCache.set (ProductsCache.new None) [[phone_a; phone_b]]
       phone_params 0%nat 0 in
   ProductsCache.timeout stored.2 = 300000 ∧
   (∃ a, ProductsCache.get stored.2 phone_params 299999 = (Some a, stored.2) ∧
         array_read stored.1 a = [phone_a; phone_b]) ∧
   ProductsCache.get stored.2 phone_params 300001
     = (None, ProductsCache.new None)).
Proof.
  split.
  - intros pc m params items t now stored.
    destruct (set_stores_copy pc m params items t) as (He & Ht & Hcopy & _).
    fold stored in He, Ht, Hcopy. split; intros Hage.
    + exists (length m). split; [ | done ].
      apply (get_live _ _ _ _ He). simpl. lia.
    + eexists. split.
      * apply (get_expired _ _ _ _ He). simpl. lia.
      * simpl. apply lookup_delete_eq.
  - simpl. split; [ reflexivity | ]. split.
    + exists 1%nat. split; [ | reflexivity ].
      erewrite get_live; [ | apply lookup_insert_eq | simpl; lia ].
      reflexivity.
    + erewrite get_expired; [ | apply lookup_insert_eq | simpl; lia ].
      unfold ProductsCache.new.
      f_equal; simpl; by rewrite ?delete_insert_eq, ?delete_empty.
Qed.

Lemma cache_entry_served_until_ttl_witness :
  ∃ a, ProductsCache.get
         (ProductsCache.set (ProductsCache.new None) [] phone_params 0%nat 1000).2
         phone_params 301000
       = (Some a,
          (ProductsCache.set (ProductsCache.new None) [] phone_params 0%nat 1000).2).
Proof.
  destruct cache_entry_served_until_ttl as [H _].
  destruct (H (ProductsCache.new None) [] phone_params 0%nat 1000 301000) as [Hlive _].
  destruct Hlive as (a & Ha & _); [ simpl; lia | ].
  by exists a.
Defined.

(** ** Aliasing of cached arrays *)

Lemma get_returns_stored_array pc params now a pc' :
  ProductsCache.get pc params now = (Some a, pc') →
  ∃ e, ProductsCache.cache pc !! ProductsCache.generateKey params = Some e ∧
       data e = a ∧ pc' = pc.
Proof.
  unfold ProductsCache.get.
  destruct (ProductsCache.cache pc !! ProductsCache.generateKey params) as [e | ];
    [ | done ].
  destruct (_ >? _); [ done | ]. intros [= <- <-]. by exists e.
Qed.

(** C9 fails on the code: [get] hands out the stored array itself. After
    [set] of the items [phone_a] at time 0, a caller that pushes [phone_b]
    onto the array returned by [get] changes what the next [get] returns. *)
Theorem get_result_aliases_cache :
  let stored := ProductsCache.set (ProductsCache.new None) [[phone_a]]
                  phone_params 0%nat 0 in
  ∃ a, ProductsCache.get stored.2 phone_params 1 = (Some a, stored.2) ∧
       array_read stored.1 a = [phone_a] ∧
       let mutated := array_mutate a (fun items => items ++ [phone_b]) stored.1 in
       ProductsCache.get stored.2 phone_params 2 = (Some a, stored.2) ∧
       array_read mutated a = [phone_a; phone_b].
Proof.
  simpl. exists 1%nat.
  assert (Hget : ∀ now, now ≤ 300000 →
            ProductsCache.get
              (ProductsCache.set (ProductsCache.new None) [[phone_a]]
                 phone_params 0%nat 0).2 phone_params now
            = (Some 1%nat,
               (ProductsCache.set (ProductsCache.new None) [[phone_a]]
                  phone_params 0%nat 0).2)).
  { intros now Hnow.
    erewrite get_live; [ | apply lookup_insert_eq | simpl; lia ].
    reflexivity. }
  repeat split; try reflexivity; apply Hget; lia.
Qed.

(** ** Invariants of the transition system *)

Lemma run_app cfg evs1 evs2 h :
  run cfg (evs1 ++ evs2) h = run cfg evs2 (run cfg evs1 h).
Proof. unfold run. apply foldl_app. Qed.

Lemma reachable_run cfg evs h : reachable cfg h → reachable cfg (run cfg evs h).
Proof.
  revert h. induction evs as [ | ev evs IH ]; intros h Hh; [ done | ].
  simpl. apply IH. by constructor.
Qed.

Lemma in_flightb_spec h i : in_flightb h i = true ↔ in_flight h i.
Proof.
  unfold in_flightb, in_flight. split.
  - destruct (tasks h !! i) as [[t | ] | ]; try done.
    intros Hb. exists t. split; [ done | ].
    destruct (kind t); [ by apply negb_true_iff | done ].
  - intros (t & -> & Hk).
    destruct (kind t); [ by apply negb_true_iff | done ].
Qed.

Ltac split_all := repeat match goal with |- _ ∧ _ => split end.

(** *** Controllers and tasks *)

Lemma controller_of_Some slot c :
  controller_of slot = Some c ↔
  ∃ t p l, slot = Some t ∧ kind t = FetchProductsTask p c l.
Proof.
  split.
  - destruct slot as [t | ]; [ | done ]. simpl.
    destruct (kind t) as [p c' l | ] eqn:Hk; [ | done ].
    intros [= ->]. by exists t, p, l.
  - intros (t & p & l & -> & Hk). simpl. by rewrite Hk.
Qed.

Lemma ctl_inv_abort r sg ts c :
  ctl_inv r sg ts → ctl_inv r (<[c := true]> sg) ts.
Proof.
  intros (Href & Hslots & Huniq). split; [ | split ]; [ | | done ].
  - intros c' Hc'. rewrite length_insert. by apply Href.
  - intros i c' Hi. destruct (Hslots i c' Hi) as [Hlt [Hcur | Hab]].
    + rewrite length_insert. by split; [ | left ].
    + rewrite length_insert. split; [ done | right ].
      destruct (decide (c = c')) as [-> | Hne].
      * by apply list_lookup_insert_eq.
      * by rewrite list_lookup_insert_ne.
Qed.

(** After [abort()] on the controller of the ref, every pending call of
    [fetchProducts] has an aborted signal. *)
Lemma all_aborted_after_abort r sg ts :
  ctl_inv r sg ts →
  let sg' := match r with Some c => <[c := true]> sg | None => sg end in
  ∀ i c, controller_of <$> ts !! i = Some (Some c) →
         (c < length sg')%nat ∧ sg' !! c = Some true.
Proof.
  intros (Href & Hslots & _) sg' i c Hi.
  destruct (Hslots i c Hi) as [Hlt Hor]. subst sg'.
  destruct r as [c0 | ].
  - rewrite length_insert. split; [ done | ].
    destruct (decide (c0 = c)) as [-> | Hne].
    + by apply list_lookup_insert_eq.
    + rewrite list_lookup_insert_ne by done.
      destruct Hor as [[= ?] | ?]; [ congruence | done ].
  - split; [ done | ]. by destruct Hor.
Qed.

Lemma ctl_inv_new_fetch r sg ts t p l :
  (∀ c, r = Some c → (c < length sg)%nat) →
  (∀ i c, controller_of <$> ts !! i = Some (Some c) →
          (c < length sg)%nat ∧ sg !! c = Some true) →
  (∀ i j c, controller_of <$> ts !! i = Some (Some c) →
            controller_of <$> ts !! j = Some (Some c) → i = j) →
  kind t = FetchProductsTask p (length sg) l →
  ctl_inv (Some (length sg)) (sg ++ [false]) (ts ++ [Some t]).
Proof.
  intros Href Hold Huniq Hk.
  assert (Hnew : controller_of (Some t) = Some (length sg))
    by (simpl; by rewrite Hk).
  assert (Hcases : ∀ i c, controller_of <$> (ts ++ [Some t]) !! i = Some (Some c) →
            (controller_of <$> ts !! i = Some (Some c)) ∨
            (i = length ts ∧ c = length sg)).
  { intros i c Hi. destruct (decide (i < length ts)%nat) as [Hlt | Hge].
    - left. by rewrite lookup_app_l in Hi.
    - right. rewrite lookup_app_r in Hi by lia.
      destruct (i - length ts)%nat as [ | n ] eqn:Hn; simpl in Hi.
      + rewrite Hk in Hi. simplify_eq. split; [ lia | done ].
      + first [ done | by rewrite lookup_nil in Hi | by destruct n ]. }
  split; [ | split ].
  - intros c [= <-]. rewrite length_app. simpl. lia.
  - intros i c Hi. rewrite length_app. simpl.
    destruct (Hcases i c Hi) as [Hi' | [-> ->]].
    + destruct (Hold i c Hi') as [Hlt Hab]. split; [ lia | right ].
      by rewrite lookup_app_l.
    + split; [ lia | by left ].
  - intros i j c Hi Hj.
    destruct (Hcases i c Hi) as [Hi' | [Ei Ec]],
             (Hcases j c Hj) as [Hj' | [Ej Ec']].
    + by apply (Huniq i j c).
    + destruct (Hold i _ Hi'). lia.
    + destruct (Hold j _ Hj'). lia.
    + congruence.
Qed.

Lemma ctl_inv_spawn_loadMore r sg ts t :
  ctl_inv r sg ts → kind t = LoadMoreTask → ctl_inv r sg (ts ++ [Some t]).
Proof.
  intros (Href & Hslots & Huniq) Hk.
  assert (Hcases : ∀ i c, controller_of <$> (ts ++ [Some t]) !! i = Some (Some c) →
            controller_of <$> ts !! i = Some (Some c)).
  { intros i c Hi. destruct (decide (i < length ts)%nat) as [Hlt | Hge].
    - by rewrite lookup_app_l in Hi.
    - rewrite lookup_app_r in Hi by lia.
      destruct (i - length ts)%nat as [ | n ]; simpl in Hi.
      + by rewrite Hk in Hi.
      + first [ done | by rewrite lookup_nil in Hi | by destruct n ]. }
  split; [ done | split ].
  - intros i c Hi. by apply (Hslots i), Hcases.
  - intros i j c Hi Hj. apply (Huniq i j c); by apply Hcases.
Qed.

Lemma ctl_inv_update r sg ts i t t' :
  ctl_inv r sg ts → ts !! i = Some (Some t) → kind t' = kind t →
  ctl_inv r sg (<[i := Some t']> ts).
Proof.
  intros (Href & Hslots & Huniq) Hi Hk.
  assert (Hcases : ∀ j c, controller_of <$> (<[i := Some t']> ts) !! j = Some (Some c) →
            controller_of <$> ts !! j = Some (Some c)).
  { intros j c Hj. destruct (decide (i = j)) as [<- | Hne].
    - rewrite list_lookup_insert_eq in Hj by (by eapply lookup_lt_Some).
      rewrite Hi. simpl in *. by rewrite <- Hk.
    - by rewrite list_lookup_insert_ne in Hj. }
  split; [ done | split ].
  - intros j c Hj. by apply (Hslots j), Hcases.
  - intros j k c Hj Hk'. apply (Huniq j k c); by apply Hcases.
Qed.

Lemma ctl_inv_finish r sg ts i :
  ctl_inv r sg ts → ctl_inv r sg (<[i := None]> ts).
Proof.
  intros (Href & Hslots & Huniq).
  assert (Hcases : ∀ j c, controller_of <$> (<[i := None]> ts) !! j = Some (Some c) →
            controller_of <$> ts !! j = Some (Some c)).
  { intros j c Hj. destruct (decide (i = j)) as [<- | Hne].
    - destruct (decide (i < length ts)%nat).
      + by rewrite list_lookup_insert_eq in Hj.
      + by rewrite list_insert_ge in Hj by lia.
    - by rewrite list_lookup_insert_ne in Hj. }
  split; [ done | split ].
  - intros j c Hj. by apply (Hslots j), Hcases.
  - intros j k c Hj Hk'. apply (Huniq j k c); by apply Hcases.
Qed.

Lemma abort_current_signals h :
  signals (abort_current h)
  = match abortControllerRef h with
    | Some c => <[c := true]> (signals h)
    | None => signals h
    end.
Proof. unfold abort_current. by destruct (abortControllerRef h). Qed.

Lemma abort_current_tasks h : tasks (abort_current h) = tasks h.
Proof. unfold abort_current. by destruct (abortControllerRef h). Qed.

Lemma abort_current_ref h :
  abortControllerRef (abort_current h) = abortControllerRef h.
Proof. unfold abort_current. by destruct (abortControllerRef h) eqn:E. Qed.

Lemma abort_current_length h :
  length (signals (abort_current h)) = length (signals h).
Proof.
  rewrite abort_current_signals.
  destruct (abortControllerRef h); by rewrite ?length_insert.
Qed.

Lemma controllers_ok_abort_current h :
  controllers_ok h → controllers_ok (abort_current h).
Proof.
  unfold controllers_ok.
  rewrite abort_current_signals, abort_current_tasks, abort_current_ref.
  destruct (abortControllerRef h); [ apply ctl_inv_abort | done ].
Qed.

Lemma controllers_ok_handleError e r h :
  controllers_ok h → controllers_ok (handleError e r h).
Proof.
  unfold handleError. simpl.
  destruct r as [[p l] | ], (retryTimeoutRef h); exact (fun H => H).
Qed.

Lemma controllers_ok_fetchProducts params l now h :
  controllers_ok h → controllers_ok (fetchProducts params l now h).
Proof.
  intros Hok. unfold fetchProducts.
  destruct (ProductsCache.get _ params now) as [cached pc].
  assert (Hhit : controllers_ok (abort_current h))
    by by apply controllers_ok_abort_current.
  assert (Hmiss :
    ∀ t, kind t = FetchProductsTask params (length (signals (abort_current h))) l →
         ctl_inv (Some (length (signals (abort_current h))))
           (signals (abort_current h) ++ [false])
           (tasks (abort_current h) ++ [Some t])).
  { intros t Hk. pose proof (all_aborted_after_abort _ _ _ Hok) as Hall.
    simpl in Hall. rewrite <- abort_current_signals in Hall.
    destruct Hhit as (Href & _ & Huniq).
    eapply ctl_inv_new_fetch; [ done | | done | done ].
    rewrite abort_current_tasks. apply Hall. }
  destruct cached as [a | ], l; first [ exact Hhit | by apply Hmiss ].
Qed.

Lemma controllers_ok_settle i o now h :
  controllers_ok h → controllers_ok (settle i o now h).
Proof.
  intros Hok. unfold settle.
  destruct (tasks h !! i) as [[t | ] | ] eqn:Hi; [ | done | done ].
  assert (Hfin : controllers_ok (finish i h)) by by apply ctl_inv_finish.
  assert (Hupd : ∀ t', kind t' = kind t →
            controllers_ok (set_tasks (<[i := Some t']> (tasks h)) h))
    by (intros t' Hk; by eapply ctl_inv_update).
  assert (Hcatch : ∀ e p l,
            controllers_ok (fetchProducts_catch e p l (finish i h))).
  { intros e p l. unfold fetchProducts_catch.
    destruct e as [name msg | | ]; [ destruct (String.eqb name _) | | ];
      first [ done | by apply controllers_ok_handleError ]. }
  destruct (kind t) as [p c l | ] eqn:Hk.
  - unfold resume_fetchProducts.
    destruct (aborted h c); [ destruct (awaiting t); apply Hcatch | ].
    destruct (awaiting t), o as [ok status | body | e];
      try done; try apply Hcatch.
    + destruct ok; [ by apply Hupd | apply Hcatch ].
    + unfold fetchProducts_apply.
      destruct (success body); [ exact Hfin | apply Hcatch ].
  - unfold resume_loadMore.
    destruct (awaiting t), o as [ok status | body | e]; try done;
      try (by apply controllers_ok_handleError).
    + destruct ok; [ by apply Hupd | by apply controllers_ok_handleError ].
    + unfold loadMore_apply. destruct (success body), (data_data body); done.
Qed.

Lemma controllers_ok_loadMore h : controllers_ok h → controllers_ok (loadMore h).
Proof.
  intros Hok. unfold loadMore.
  destruct (seen_pagination h) as [pg | ]; [ | done ].
  destruct (negb (has_next_page pg) || seen_loading h); [ done | ].
  by apply ctl_inv_spawn_loadMore.
Qed.

Lemma controllers_ok_clear_timer i h :
  controllers_ok h → controllers_ok (clear_timer i h).
Proof. exact (fun H => H). Qed.

Lemma controllers_ok_refresh_cleanup cfg h :
  controllers_ok h → controllers_ok (refresh_cleanup cfg h).
Proof.
  unfold refresh_cleanup.
  destruct (refresh_enabled cfg), (refreshIntervalRef h); exact (fun H => H).
Qed.

Lemma controllers_ok_refresh_effect cfg h :
  controllers_ok h → controllers_ok (refresh_effect cfg h).
Proof. unfold refresh_effect. destruct (refresh_enabled cfg); exact (fun H => H). Qed.

Lemma controllers_ok_fetch_cleanup h :
  controllers_ok h → controllers_ok (fetch_cleanup h).
Proof.
  intros Hok%controllers_ok_abort_current. unfold fetch_cleanup.
  destruct (refreshIntervalRef (abort_current h)) as [i | ]; simpl;
    destruct (retryTimeoutRef (abort_current h)); exact Hok.
Qed.

Lemma controllers_ok_fetch_effect cfg now h :
  controllers_ok h → controllers_ok (fetch_effect cfg now h).
Proof.
  unfold fetch_effect.
  destruct (autoFetch cfg); [ apply controllers_ok_fetchProducts | done ].
Qed.

Lemma controllers_ok_mount cfg entries m now :
  controllers_ok (mount cfg entries m now).
Proof.
  unfold mount. simpl.
  apply controllers_ok_fetch_effect, controllers_ok_refresh_effect.
  split; [ done | split ]; intros *; by rewrite ?lookup_nil.
Qed.

Lemma controllers_ok_step cfg ev h :
  controllers_ok h → controllers_ok (step cfg ev h).
Proof.
  intros Hok. destruct ev as [now | now | | p | | i o now | i now ]; simpl.
  - unfold render.
    destruct (negb _ || _); [ | done ].
    by apply controllers_ok_fetch_effect, controllers_ok_refresh_effect,
      controllers_ok_fetch_cleanup, controllers_ok_refresh_cleanup.
  - unfold refetch. by apply controllers_ok_fetchProducts.
  - by apply controllers_ok_loadMore.
  - done.
  - done.
  - by apply controllers_ok_settle.
  - unfold timer_fires.
    destruct (timers h !! i) as [[[delay p l | interval p l] | ] | ];
      first [ done | by apply controllers_ok_fetchProducts ].
Qed.

Lemma reachable_controllers_ok cfg h : reachable cfg h → controllers_ok h.
Proof.
  induction 1; [ apply controllers_ok_mount | by apply controllers_ok_step ].
Qed.

(** *** Monotonicity of signals and task slots *)

Lemma slot_evolves_refl slot : slot_evolves slot slot.
Proof. destruct slot as [t | ]; [ right; by exists t, t | by left ]. Qed.

Lemma slot_evolves_trans s1 s2 s3 :
  slot_evolves s1 s2 → slot_evolves s2 s3 → slot_evolves s1 s3.
Proof.
  intros H12 [-> | (t2 & t3 & -> & -> & Hk23)]; [ by left | ].
  destruct H12 as [? | (t1 & t2' & -> & [= <-] & Hk12)]; [ done | ].
  right. exists t1, t3. repeat split. congruence.
Qed.

Lemma adv_refl sg ts : adv sg ts sg ts.
Proof.
  split; [ done | ]. intros i slot Hi. exists slot.
  split; [ done | apply slot_evolves_refl ].
Qed.

Lemma adv_trans sg1 ts1 sg2 ts2 sg3 ts3 :
  adv sg1 ts1 sg2 ts2 → adv sg2 ts2 sg3 ts3 → adv sg1 ts1 sg3 ts3.
Proof.
  intros [Hs12 Ht12] [Hs23 Ht23]. split; [ by auto | ].
  intros i s1 Hi. destruct (Ht12 i s1 Hi) as (s2 & Hi2 & He12).
  destruct (Ht23 i s2 Hi2) as (s3 & Hi3 & He23).
  exists s3. split; [ done | by eapply slot_evolves_trans ].
Qed.

Lemma adv_abort sg ts c : adv sg ts (<[c := true]> sg) ts.
Proof.
  split; [ | apply (adv_refl sg ts) ]. intros c' Hc'.
  destruct (decide (c = c')) as [-> | Hne].
  - apply list_lookup_insert_eq. by eapply lookup_lt_Some.
  - by rewrite list_lookup_insert_ne.
Qed.

Lemma adv_grow sg ts sg' ts' : adv sg ts (sg ++ sg') (ts ++ ts').
Proof.
  split.
  - intros c Hc. by apply lookup_app_l_Some.
  - intros i slot Hi. exists slot.
    split; [ by apply lookup_app_l_Some | apply slot_evolves_refl ].
Qed.

Lemma adv_update sg ts i t t' :
  ts !! i = Some (Some t) → kind t' = kind t →
  adv sg ts sg (<[i := Some t']> ts).
Proof.
  intros Hi Hk. split; [ done | ]. intros j slot Hj.
  destruct (decide (i = j)) as [<- | Hne].
  - exists (Some t'). split.
    + apply list_lookup_insert_eq. by eapply lookup_lt_Some.
    + right. exists t, t'. split; [ congruence | done ].
  - exists slot. rewrite list_lookup_insert_ne by done.
    split; [ done | apply slot_evolves_refl ].
Qed.

Lemma adv_finish sg ts i : adv sg ts sg (<[i := None]> ts).
Proof.
  split; [ done | ]. intros j slot Hj.
  destruct (decide (i = j)) as [<- | Hne].
  - exists None. split; [ | by left ].
    apply list_lookup_insert_eq. by eapply lookup_lt_Some.
  - exists slot. rewrite list_lookup_insert_ne by done.
    split; [ done | apply slot_evolves_refl ].
Qed.

Lemma advances_refl h : advances h h.
Proof. apply adv_refl. Qed.

Lemma advances_trans h1 h2 h3 :
  advances h1 h2 → advances h2 h3 → advances h1 h3.
Proof. apply adv_trans. Qed.

Lemma advances_abort_current h : advances h (abort_current h).
Proof.
  unfold advances. rewrite abort_current_signals, abort_current_tasks.
  destruct (abortControllerRef h); [ apply adv_abort | apply adv_refl ].
Qed.

Lemma advances_handleError e r h : advances h (handleError e r h).
Proof.
  unfold handleError. simpl.
  destruct r as [[p l] | ], (retryTimeoutRef h); exact (adv_refl _ _).
Qed.

Lemma advances_fetchProducts params l now h :
  advances h (fetchProducts params l now h).
Proof.
  unfold fetchProducts.
  destruct (ProductsCache.get _ params now) as [cached pc].
  eapply advances_trans; [ apply advances_abort_current | ].
  destruct cached as [a | ], l;
    first [ exact (adv_refl _ _) | exact (adv_grow _ _ [false] [_]) ].
Qed.

Lemma advances_settle i o now h : advances h (settle i o now h).
Proof.
  unfold settle.
  destruct (tasks h !! i) as [[t | ] | ] eqn:Hi; try exact (adv_refl _ _).
  assert (Hfin : advances h (finish i h)) by apply adv_finish.
  assert (Hupd : ∀ t', kind t' = kind t →
            advances h (set_tasks (<[i := Some t']> (tasks h)) h))
    by (intros t' Hk; by eapply adv_update).
  assert (Herr : ∀ e r, advances h (handleError e r (finish i h))).
  { intros e r. eapply advances_trans; [ exact Hfin | ].
    apply advances_handleError. }
  assert (Hcatch : ∀ e p l, advances h (fetchProducts_catch e p l (finish i h))).
  { intros e p l. unfold fetchProducts_catch.
    destruct e as [name msg | | ]; [ destruct (String.eqb name _) | | ];
      first [ exact Hfin | apply Herr ]. }
  destruct (kind t) as [p c l | ] eqn:Hk.
  - unfold resume_fetchProducts.
    destruct (aborted h c); [ destruct (awaiting t); apply Hcatch | ].
    destruct (awaiting t), o as [ok status | body | e];
      try exact (adv_refl _ _); try apply Hcatch.
    + destruct ok; [ by apply Hupd | apply Hcatch ].
    + unfold fetchProducts_apply.
      destruct (success body); [ exact Hfin | apply Hcatch ].
  - unfold resume_loadMore.
    destruct (awaiting t), o as [ok status | body | e];
      try exact (adv_refl _ _); try apply Herr.
    + destruct ok; [ by apply Hupd | apply Herr ].
    + unfold loadMore_apply.
      destruct (success body), (data_data body); exact Hfin.
Qed.

Lemma advances_loadMore h : advances h (loadMore h).
Proof.
  unfold loadMore.
  destruct (seen_pagination h) as [pg | ]; [ | exact (adv_refl _ _) ].
  destruct (negb (has_next_page pg) || seen_loading h);
    [ exact (adv_refl _ _) | ].
  exact (eq_rect _ (fun sg => adv (signals h) (tasks h) sg _)
           (adv_grow (signals h) (tasks h) [] [_]) _ (app_nil_r _)).
Qed.

Lemma advances_refresh_cleanup cfg h : advances h (refresh_cleanup cfg h).
Proof.
  unfold refresh_cleanup.
  destruct (refresh_enabled cfg), (refreshIntervalRef h); exact (adv_refl _ _).
Qed.

Lemma advances_refresh_effect cfg h : advances h (refresh_effect cfg h).
Proof.
  unfold refresh_effect. destruct (refresh_enabled cfg); exact (adv_refl _ _).
Qed.

Lemma advances_fetch_cleanup h : advances h (fetch_cleanup h).
Proof.
  eapply advances_trans; [ apply advances_abort_current | ].
  unfold fetch_cleanup.
  destruct (refreshIntervalRef (abort_current h)) as [i | ]; simpl;
    destruct (retryTimeoutRef (abort_current h)); exact (adv_refl _ _).
Qed.

Lemma advances_fetch_effect cfg now h : advances h (fetch_effect cfg now h).
Proof.
  unfold fetch_effect.
  destruct (autoFetch cfg); [ apply advances_fetchProducts | exact (adv_refl _ _) ].
Qed.

Lemma advances_step cfg ev h : advances h (step cfg ev h).
Proof.
  destruct ev as [now | now | | p | | i o now | i now ]; simpl.
  - unfold render.
    destruct (negb _ || _); [ | exact (adv_refl _ _) ].
    eapply advances_trans; [ | apply advances_fetch_effect ].
    eapply advances_trans; [ | apply advances_refresh_effect ].
    eapply advances_trans; [ | apply advances_fetch_cleanup ].
    eapply advances_trans; [ | apply advances_refresh_cleanup ].
    exact (adv_refl _ _).
  - unfold refetch. apply advances_fetchProducts.
  - apply advances_loadMore.
  - exact (adv_refl _ _).
  - exact (adv_refl _ _).
  - apply advances_settle.
  - unfold timer_fires.
    destruct (timers h !! i) as [[[delay p l | interval p l] | ] | ];
      try exact (adv_refl _ _).
    + eapply advances_trans; [ | apply advances_fetchProducts ].
      exact (adv_refl _ _).
    + apply advances_fetchProducts.
Qed.

Lemma advances_run cfg evs h : advances h (run cfg evs h).
Proof.
  revert h. induction evs as [ | ev evs IH ]; intros h; [ apply advances_refl | ].
  simpl. eapply advances_trans; [ apply advances_step | apply IH ].
Qed.

(** *** Retry timers *)

Lemma retry_inv_clear r tm i : retry_inv r tm → retry_inv r (<[i := None]> tm).
Proof.
  intros Hinv j delay p l Hj. destruct (decide (i = j)) as [<- | Hne].
  - destruct (decide (i < length tm)%nat).
    + by rewrite list_lookup_insert_eq in Hj.
    + rewrite list_insert_ge in Hj by lia. by eapply Hinv.
  - rewrite list_lookup_insert_ne in Hj by done. by eapply Hinv.
Qed.

Lemma retry_inv_fired r tm i delay p l :
  retry_inv r tm → tm !! i = Some (Some (RetryTimer delay p l)) →
  retry_inv None (<[i := None]> tm).
Proof.
  intros Hinv Hi j delay' p' l' Hj. destruct (decide (i = j)) as [<- | Hne].
  - rewrite list_lookup_insert_eq in Hj by (by eapply lookup_lt_Some). done.
  - rewrite list_lookup_insert_ne in Hj by done.
    pose proof (Hinv _ _ _ _ Hi). pose proof (Hinv _ _ _ _ Hj). congruence.
Qed.

Lemma retry_inv_arm tm delay p l :
  retry_inv None tm →
  retry_inv (Some (length tm)) (tm ++ [Some (RetryTimer delay p l)]).
Proof.
  intros Hinv j delay' p' l' Hj.
  destruct (decide (j < length tm)%nat) as [Hlt | Hge].
  - rewrite lookup_app_l in Hj by done. by pose proof (Hinv _ _ _ _ Hj).
  - apply lookup_lt_Some in Hj as Hlen. rewrite length_app in Hlen.
    simpl in Hlen. f_equal. lia.
Qed.

Lemma retry_inv_refresh r tm interval p l :
  retry_inv r tm → retry_inv r (tm ++ [Some (RefreshTimer interval p l)]).
Proof.
  intros Hinv j delay' p' l' Hj.
  destruct (decide (j < length tm)%nat) as [Hlt | Hge].
  - rewrite lookup_app_l in Hj by done. by eapply Hinv.
  - rewrite lookup_app_r in Hj by lia.
    destruct (j - length tm)%nat as [ | n ]; [ done | by destruct n ].
Qed.

Lemma retry_ok_handleError e r h : retry_ok h → retry_ok (handleError e r h).
Proof.
  intros Hok. unfold handleError. simpl.
  destruct r as [[p l] | ]; [ | exact Hok ].
  destruct (retryTimeoutRef h) eqn:Href; [ exact Hok | ].
  unfold retry_ok in *. simpl. apply retry_inv_arm. by rewrite <- Href.
Qed.

Lemma retry_ok_fetchProducts params l now h :
  retry_ok h → retry_ok (fetchProducts params l now h).
Proof.
  intros Hok. unfold fetchProducts.
  destruct (ProductsCache.get _ params now) as [cached pc].
  assert (Hab : retry_ok (abort_current h))
    by (unfold abort_current; by destruct (abortControllerRef h)).
  destruct cached as [a | ], l; exact Hab.
Qed.

Lemma retry_ok_settle i o now h : retry_ok h → retry_ok (settle i o now h).
Proof.
  intros Hok. unfold settle.
  destruct (tasks h !! i) as [[t | ] | ] eqn:Hi; [ | done | done ].
  assert (Hfin : retry_ok (finish i h)) by exact Hok.
  assert (Herr : ∀ e r, retry_ok (handleError e r (finish i h)))
    by (intros; by apply retry_ok_handleError).
  assert (Hcatch : ∀ e p l, retry_ok (fetchProducts_catch e p l (finish i h))).
  { intros e p l. unfold fetchProducts_catch.
    destruct e as [name msg | | ]; [ destruct (String.eqb name _) | | ];
      first [ exact Hfin | apply Herr ]. }
  destruct (kind t) as [p c l | ] eqn:Hk.
  - unfold resume_fetchProducts.
    destruct (aborted h c); [ destruct (awaiting t); apply Hcatch | ].
    destruct (awaiting t), o as [ok status | body | e];
      try exact Hok; try apply Hcatch.
    + destruct ok; [ exact Hok | apply Hcatch ].
    + unfold fetchProducts_apply.
      destruct (success body); [ exact Hfin | apply Hcatch ].
  - unfold resume_loadMore.
    destruct (awaiting t), o as [ok status | body | e];
      try exact Hok; try apply Herr.
    + destruct ok; [ exact Hok | apply Herr ].
    + unfold loadMore_apply.
      destruct (success body), (data_data body); exact Hfin.
Qed.

Lemma retry_ok_loadMore h : retry_ok h → retry_ok (loadMore h).
Proof.
  intros Hok. unfold loadMore.
  destruct (seen_pagination h) as [pg | ]; [ | done ].
  by destruct (negb (has_next_page pg) || seen_loading h).
Qed.

Lemma retry_ok_clear_timer i h : retry_ok h → retry_ok (clear_timer i h).
Proof. apply retry_inv_clear. Qed.

Lemma retry_ok_refresh_cleanup cfg h :
  retry_ok h → retry_ok (refresh_cleanup cfg h).
Proof.
  intros Hok. unfold refresh_cleanup.
  destruct (refresh_enabled cfg), (refreshIntervalRef h);
    first [ exact Hok | by apply retry_ok_clear_timer ].
Qed.

Lemma retry_ok_refresh_effect cfg h :
  retry_ok h → retry_ok (refresh_effect cfg h).
Proof.
  intros Hok. unfold refresh_effect.
  destruct (refresh_enabled cfg); [ | exact Hok ].
  by apply retry_inv_refresh.
Qed.

Lemma retry_ok_fetch_cleanup h : retry_ok h → retry_ok (fetch_cleanup h).
Proof.
  intros Hok. unfold fetch_cleanup.
  assert (Hab : retry_ok (abort_current h))
    by (unfold abort_current; by destruct (abortControllerRef h)).
  destruct (refreshIntervalRef (abort_current h)) as [i | ]; simpl;
    destruct (retryTimeoutRef (abort_current h)) as [j | ] eqn:Href;
    rewrite ?Href; repeat apply retry_ok_clear_timer; exact Hab.
Qed.

Lemma retry_ok_fetch_effect cfg now h :
  retry_ok h → retry_ok (fetch_effect cfg now h).
Proof.
  unfold fetch_effect.
  destruct (autoFetch cfg); [ apply retry_ok_fetchProducts | done ].
Qed.

Lemma retry_ok_mount cfg entries m now : retry_ok (mount cfg entries m now).
Proof.
  unfold mount. simpl.
  apply retry_ok_fetch_effect, retry_ok_refresh_effect.
  intros j delay p l Hj. simpl in Hj. by destruct j.
Qed.

Lemma retry_ok_step cfg ev h : retry_ok h → retry_ok (step cfg ev h).
Proof.
  intros Hok. destruct ev as [now | now | | p | | i o now | i now ]; simpl.
  - unfold render.
    destruct (negb _ || _); [ | done ].
    by apply retry_ok_fetch_effect, retry_ok_refresh_effect,
      retry_ok_fetch_cleanup, retry_ok_refresh_cleanup.
  - unfold refetch. by apply retry_ok_fetchProducts.
  - by apply retry_ok_loadMore.
  - done.
  - done.
  - by apply retry_ok_settle.
  - unfold timer_fires.
    destruct (timers h !! i) as [[[delay p l | interval p l] | ] | ] eqn:Hi;
      try done; apply retry_ok_fetchProducts; [ | done ].
    by eapply retry_inv_fired.
Qed.

Lemma reachable_retry_ok cfg h : reachable cfg h → retry_ok h.
Proof. induction 1; [ apply retry_ok_mount | by apply retry_ok_step ]. Qed.

(** ** The operations one by one *)

Lemma abort_current_frame h :
  state (abort_current h) = state h ∧
  productsCache (abort_current h) = productsCache h ∧
  arrays (abort_current h) = arrays h ∧
  timers (abort_current h) = timers h ∧
  retryTimeoutRef (abort_current h) = retryTimeoutRef h.
Proof. unfold abort_current. by destruct (abortControllerRef h). Qed.

Lemma fetchProducts_hit params now h a pc :
  ProductsCache.get (productsCache h) params now = (Some a, pc) →
  fetchProducts params false now h
  = set_state (fun prev =>
      {| products := a; loading := loading prev; error := None;
         pagination := pagination prev; lastFetchTime := Some now |})
      (set_cache pc (arrays h) (abort_current h)).
Proof.
  intros Hget. unfold fetchProducts.
  destruct (abort_current_frame h) as (_ & -> & -> & _). by rewrite Hget.
Qed.

Lemma fetchProducts_request params l now h :
  l = true ∨ (ProductsCache.get (productsCache h) params now).1 = None →
  fetchProducts params l now h
  = spawn (fetch_task params (length (signals h)) l)
      (set_state (fun prev =>
         {| products := products prev; loading := true; error := None;
            pagination := pagination prev;
            lastFetchTime := lastFetchTime prev |})
         (new_controller
            (set_cache (ProductsCache.get (productsCache h) params now).2
               (arrays h) (abort_current h)))).
Proof.
  intros Hor. unfold fetchProducts.
  destruct (abort_current_frame h) as (_ & -> & -> & _).
  destruct (ProductsCache.get (productsCache h) params now) as [cached pc].
  simpl in *. rewrite abort_current_length.
  destruct Hor as [-> | ->]; [ by destruct cached | done ].
Qed.

(** C10: [fetchProducts] publishes a cached list, without a request, only
    when the [state.loading] that its closure captured at the last render is
    false; the hit leaves the state's [loading] as it is. When the captured
    flag is true, a live cache entry for the requested parameters is passed
    over: the call creates a controller and issues a request, and leaves the
    items alone. So a call that issues no request was made with the captured
    flag false; when the captured flag is the state's [loading], the state
    is not loading then. *)
Theorem cache_hit_only_when_not_loading params now h a :
  (ProductsCache.get (productsCache h) params now).1 = Some a →
  (let h' := fetchProducts params false now h in
   tasks h' = tasks h ∧ products (state h') = a ∧ error (state h') = None ∧
   loading (state h') = loading (state h)) ∧
  (let h' := fetchProducts params true now h in
   tasks h' = tasks h ++ [Some (fetch_task params (length (signals h)) true)] ∧
   abortControllerRef h' = Some (length (signals h)) ∧
   aborted h' (length (signals h)) = false ∧
   products (state h') = products (state h) ∧
   loading (state h') = true) ∧
  (∀ l, tasks (fetchProducts params l now h) = tasks h → l = false) ∧
  (seen_loading h = loading (state h) →
   tasks (refetch now h) = tasks h → loading (state h) = false).
Proof.
  intros Hlive.
  assert (Hreq : ∀ p, tasks (fetchProducts p true now h) ≠ tasks h).
  { intros p. rewrite fetchProducts_request by by left. simpl.
    rewrite abort_current_tasks. intros Heq%(f_equal length).
    rewrite length_app in Heq. simpl in Heq. lia. }
  split; [ | split; [ | split ] ].
  - destruct (ProductsCache.get (productsCache h) params now) as [cached pc] eqn:Hget.
    simpl in Hlive. subst cached. rewrite (fetchProducts_hit _ _ _ _ _ Hget).
    simpl. rewrite abort_current_tasks.
    by destruct (abort_current_frame h) as (-> & _).
  - rewrite fetchProducts_request by by left. simpl.
    rewrite abort_current_tasks, abort_current_length.
    destruct (abort_current_frame h) as (-> & _).
    repeat split. apply bool_decide_eq_false. simpl.
    rewrite lookup_app_r by (by rewrite abort_current_length).
    rewrite abort_current_length, Nat.sub_diag. simpl. discriminate.
  - intros [ | ] Htasks; [ by destruct (Hreq params) | done ].
  - intros Hseen Htasks. unfold refetch in Htasks. rewrite <- Hseen.
    destruct (seen_loading h); [ by destruct (Hreq (seen_params h)) | done ].
Qed.

Lemma cache_hit_only_when_not_loading_witness :
  tasks (fetchProducts [] true 30 settled_hook)
  = tasks settled_hook ++ [Some (fetch_task [] 1 true)].
Proof.
  destruct (cache_hit_only_when_not_loading [] 30 settled_hook 2%nat)
    as (_ & (Htasks & _) & _); [ reflexivity | ].
  exact Htasks.
Defined.

(** C10, as stated, fails: after [loadMore()] on the settled hook the
    state's [loading] is true and the load-more request is in flight, while
    the callbacks are still those of the last render, which saw [loading]
    false. A [refetch()] made then finds the live cache entry and publishes
    it: no request is issued, and [loading] stays true. *)
Lemma refetch_serves_cache_while_loading :
  let h := run default_config [LoadMore] settled_hook in
  let h' := run default_config [Refetch 30] h in
  reachable default_config h ∧
  loading (state h) = true ∧ in_flight h 1 ∧
  (ProductsCache.get (productsCache h) (seen_params h) 30).1 = Some 2%nat ∧
  tasks h' = tasks h ∧
  products (state h') = 2%nat ∧
  array_read (arrays h') 2 = [phone_a; phone_b] ∧
  loading (state h') = true.
Proof.
  intros h h'. split_all; try (vm_compute; reflexivity).
  - apply reachable_run. unfold settled_hook. apply reachable_run, reachable_mount.
  - apply in_flightb_spec. vm_compute. reflexivity.
Qed.

(** *** Objects *)

Lemma obj_get_set_eq k v o : obj_get k (obj_set k v o) = v.
Proof.
  induction o as [ | [k' v'] o IH ]; simpl.
  - by rewrite String.eqb_refl.
  - destruct (String.eqb k k') eqn:Hk; simpl; by rewrite Hk.
Qed.

Lemma obj_get_set_ne k k' v o :
  k ≠ k' → obj_get k' (obj_set k v o) = obj_get k' o.
Proof.
  intros Hne. assert (Hkk' : String.eqb k' k = false)
    by (apply String.eqb_neq; congruence).
  induction o as [ | [k0 v0] o IH ]; simpl.
  - by rewrite Hkk'.
  - destruct (String.eqb_spec k k0) as [<- | Hk0]; simpl.
    + by rewrite Hkk'.
    + by rewrite IH.
Qed.

Lemma obj_has_keys k o : obj_has k o = true ↔ k ∈ o.*1.
Proof.
  induction o as [ | [k' v'] o IH ]; simpl.
  - split; [ done | by intros ?%elem_of_nil ].
  - rewrite orb_true_iff, IH, elem_of_cons, String.eqb_eq. done.
Qed.

(** [{...a, ...b}] reads as [b] on the properties of [b] and as [a]
    elsewhere. *)
Lemma obj_get_spread k a b :
  wf_object b →
  obj_get k (obj_spread a b)
  = if obj_has k b then obj_get k b else obj_get k a.
Proof.
  unfold wf_object, obj_spread. revert a.
  induction b as [ | [k0 v0] b IH ]; intros a Hwf; [ done | ].
  simpl in *. apply NoDup_cons in Hwf as [Hfresh Hwf].
  rewrite IH by done.
  destruct (String.eqb_spec k k0) as [-> | Hne]; simpl.
  - destruct (obj_has k0 b) eqn:Hhas.
    + by apply obj_has_keys in Hhas.
    + apply obj_get_set_eq.
  - destruct (obj_has k b); [ done | ]. apply obj_get_set_ne. congruence.
Qed.

Lemma number_or_zero_id n : number_or_zero n = n.
Proof. unfold number_or_zero. destruct (Z.eqb_spec n 0); congruence. Qed.

Lemma elem_of_obj_set_other k v k' v' (o : JsObject) :
  (k', v') ∈ o → k ≠ k' → (k', v') ∈ obj_set k v o.
Proof.
  intros Hin Hne.
  induction o as [ | [k0 v0] o IH ]; [ by apply elem_of_nil in Hin | ].
  simpl. apply elem_of_cons in Hin as [[= <- <-] | Hin].
  - destruct (String.eqb_spec k k'); [ done | apply list_elem_of_here ].
  - destruct (String.eqb k k0).
    + by apply list_elem_of_further.
    + by apply list_elem_of_further, IH.
Qed.

Lemma elem_of_obj_set_new k v (o : JsObject) : (k, v) ∈ obj_set k v o.
Proof.
  induction o as [ | [k0 v0] o IH ]; simpl; [ apply list_elem_of_here | ].
  destruct (String.eqb_spec k k0) as [-> | Hne].
  - apply list_elem_of_here.
  - by apply list_elem_of_further.
Qed.






(** *** Load more *)

Lemma settle_loadMore i t o now h :
  tasks h !! i = Some (Some t) → kind t = LoadMoreTask →
  settle i o now h = resume_loadMore i t o h.
Proof. intros Hi Hk. unfold settle. by rewrite Hi, Hk. Qed.

Lemma handleError_frame e r h :
  productsCache (handleError e r h) = productsCache h ∧
  arrays (handleError e r h) = arrays h ∧
  products (state (handleError e r h)) = products (state h) ∧
  pagination (state (handleError e r h)) = pagination (state h) ∧
  error (state (handleError e r h)) = Some (error_message e) ∧
  loading (state (handleError e r h)) = false ∧
  tasks (handleError e r h) = tasks h ∧
  signals (handleError e r h) = signals h.
Proof.
  unfold handleError. simpl. by destruct r as [[p l] | ], (retryTimeoutRef h).
Qed.

Lemma resume_loadMore_cache i t o h :
  productsCache (resume_loadMore i t o h) = productsCache h.
Proof.
  unfold resume_loadMore.
  destruct (awaiting t), o as [[ | ] status | body | e]; try done;
    try apply handleError_frame.
  unfold loadMore_apply. by destruct (success body), (data_data body).
Qed.



(** *** Failure envelopes *)

Lemma settle_fetchProducts i t p c l o now h :
  tasks h !! i = Some (Some t) → kind t = FetchProductsTask p c l →
  settle i o now h = resume_fetchProducts i t p c l o now h.
Proof. intros Hi Hk. unfold settle. by rewrite Hi, Hk. Qed.

(** On the fetch path an envelope with [success = false] is recorded as an
    error, and nothing is thrown to the caller: the task ends normally. *)
Lemma fetch_failure_envelope_recorded h i t p c l body now :
  tasks h !! i = Some (Some t) → kind t = FetchProductsTask p c l →
  awaiting t = AwaitJson → aborted h c = false → success body = false →
  let h' := settle i (Parsed body) now h in
  error (state h') = Some (string_or (message body) "Failed to fetch products") ∧
  loading (state h') = false ∧
  products (state h') = products (state h) ∧
  arrays h' = arrays h ∧ productsCache h' = productsCache h ∧
  tasks h' !! i = Some None.
Proof.
  intros Hi Hk Hjson Hlive Hfail h'. subst h'.
  rewrite (settle_fetchProducts _ _ _ _ _ _ _ _ Hi Hk).
  unfold resume_fetchProducts, fetchProducts_apply.
  rewrite Hlive, Hjson, Hfail. cbn [negb]. unfold fetchProducts_catch.
  change (String.eqb "Error" "AbortError") with false. cbn iota.
  destruct (handleError_frame
              (ThrownError "Error" (string_or (message body) "Failed to fetch products"))
              (Some (p, l)) (finish i h))
    as (-> & -> & -> & _ & -> & -> & -> & _).
  repeat split. simpl. apply list_lookup_insert_eq. by eapply lookup_lt_Some.
Qed.

(** On the load-more path such an envelope changes nothing at all. *)
Lemma loadMore_failure_envelope_dropped h i t body now :
  tasks h !! i = Some (Some t) → kind t = LoadMoreTask →
  awaiting t = AwaitJson → success body = false →
  settle i (Parsed body) now h = finish i h.
Proof.
  intros Hi Hk Hjson Hfail. rewrite (settle_loadMore _ _ _ _ _ Hi Hk).
  unfold resume_loadMore, loadMore_apply. by rewrite Hjson, Hfail.
Qed.

(** C5 fails on the load-more path: after [loadMore()] on the settled hook,
    a response whose envelope has [success = false] is dropped. No error is
    recorded and [loading], set by [loadMore], stays true; the items are
    left as they were. *)
Theorem loadMore_failure_envelope_not_recorded :
  let h := run default_config
             [LoadMore; Settle 1 (Responded true 200) 40] settled_hook in
  let h' := settle 1 (Parsed failure_body) 50 h in
  in_flight h 1 ∧ loading (state h) = true ∧ error (state h) = None ∧
  state h' = state h ∧ arrays h' = arrays h ∧
  error (state h') = None ∧ loading (state h') = true ∧
  tasks h' !! 1%nat = Some None.
Proof.
  intros h h'. split_all; try (vm_compute; reflexivity).
  apply in_flightb_spec. vm_compute. reflexivity.
Qed.

(** *** Parameter updates *)

Lemma render_dirty cfg now h :
  params_dirty h = true →
  render cfg now h
  = fetch_effect cfg now
      (refresh_effect cfg (fetch_cleanup (refresh_cleanup cfg (commit h)))).
Proof. intros Hd. unfold render. by rewrite Hd, orb_true_r. Qed.

(** What the cleanups and the refresh effect of a render leave alone. *)
Lemma rerun_frame cfg h :
  let h' := refresh_effect cfg (fetch_cleanup (refresh_cleanup cfg (commit h))) in
  tasks h' = tasks h ∧ state h' = state h ∧
  productsCache h' = productsCache h ∧ arrays h' = arrays h ∧
  length (signals h') = length (signals h) ∧
  seen_params h' = searchParams h ∧ seen_loading h' = loading (state h).
Proof.
  simpl. unfold refresh_effect.
  assert (Hclean : ∀ h0,
    tasks (fetch_cleanup h0) = tasks h0 ∧ state (fetch_cleanup h0) = state h0 ∧
    productsCache (fetch_cleanup h0) = productsCache h0 ∧
    arrays (fetch_cleanup h0) = arrays h0 ∧
    length (signals (fetch_cleanup h0)) = length (signals h0) ∧
    seen_params (fetch_cleanup h0) = seen_params h0 ∧
    seen_loading (fetch_cleanup h0) = seen_loading h0).
  { intros h0. unfold fetch_cleanup.
    pose proof (abort_current_length h0) as Hlen.
    destruct (refreshIntervalRef (abort_current h0)); simpl;
      destruct (retryTimeoutRef (abort_current h0)); simpl; rewrite Hlen;
      unfold abort_current; by destruct (abortControllerRef h0). }
  set (h0 := refresh_cleanup cfg (commit h)).
  assert (H0 : tasks h0 = tasks h ∧ state h0 = state h ∧
               productsCache h0 = productsCache h ∧ arrays h0 = arrays h ∧
               length (signals h0) = length (signals h) ∧
               seen_params h0 = searchParams h ∧
               seen_loading h0 = loading (state h)).
  { subst h0. unfold refresh_cleanup.
    destruct (refresh_enabled cfg);
      [ destruct (refreshIntervalRef (commit h)) | ]; done. }
  destruct (Hclean h0) as (E1 & E2 & E3 & E4 & E5 & E6 & E7).
  destruct H0 as (F1 & F2 & F3 & F4 & F5 & F6 & F7).
  destruct (refresh_enabled cfg); simpl;
    rewrite E1, E2, E3, E4, E5, E6, E7; done.
Qed.

(** C8, as amended: [updateSearchParams(partial)] merges [partial] into the
    current parameters, field by field, and does nothing else: no request is
    issued by the call, and the state and the cache are left alone. The
    render that follows runs the fetch effect again: when [autoFetch] is on
    it fetches with the merged parameters, by a request or from a live cache
    entry, without the caller asking; when [autoFetch] is off no request is
    issued. *)
Theorem updateSearchParams_merges_then_effect_fetches cfg newParams h :
  wf_object newParams →
  let h1 := updateSearchParams newParams h in
  (∀ k, obj_get k (searchParams h1)
        = if obj_has k newParams then obj_get k newParams
          else obj_get k (searchParams h)) ∧
  (tasks h1 = tasks h ∧ signals h1 = signals h ∧ timers h1 = timers h ∧
   state h1 = state h ∧ productsCache h1 = productsCache h ∧
   arrays h1 = arrays h) ∧
  (∀ now, autoFetch cfg = false → tasks (render cfg now h1) = tasks h) ∧
  (∀ now, autoFetch cfg = true →
     (loading (state h) = true ∨
      (ProductsCache.get (productsCache h) (searchParams h1) now).1 = None) →
     tasks (render cfg now h1)
     = tasks h ++ [Some (fetch_task (searchParams h1) (length (signals h))
                           (loading (state h)))]) ∧
  (∀ now a, autoFetch cfg = true → loading (state h) = false →
     (ProductsCache.get (productsCache h) (searchParams h1) now).1 = Some a →
     tasks (render cfg now h1) = tasks h ∧
     products (state (render cfg now h1)) = a).
Proof.
  intros Hwf h1. subst h1.
  split; [ | split; [ done | ] ].
  { intros k. by apply obj_get_spread. }
  set (h1 := updateSearchParams newParams h).
  pose proof (rerun_frame cfg h1) as Hframe. simpl in Hframe.
  destruct Hframe as (Ht & Hs & Hc & Ha & Hl & Hp & Hsl).
  split; [ | split ].
  - intros now Hoff. rewrite render_dirty by done.
    unfold fetch_effect. by rewrite Hoff, Ht.
  - intros now Hon Hreq. rewrite render_dirty by done.
    unfold fetch_effect. rewrite Hon, Hp, Hsl.
    rewrite fetchProducts_request by by rewrite Hc.
    simpl. by rewrite abort_current_tasks, Ht, Hl.
  - intros now a Hon Hidle Hlive. rewrite render_dirty by done.
    unfold fetch_effect. rewrite Hon, Hp, Hsl.
    change (loading (state h1)) with (loading (state h)). rewrite Hidle.
    destruct (ProductsCache.get (productsCache h) (searchParams h1) now)
      as [cached pc] eqn:Hget.
    simpl in Hlive. subst cached.
    erewrite fetchProducts_hit by (rewrite Hc; exact Hget).
    simpl. by rewrite abort_current_tasks, Ht.
Qed.

Lemma updateSearchParams_merges_then_effect_fetches_witness :
  tasks (render default_config 30 (updateSearchParams phone_params settled_hook))
  = tasks settled_hook ++ [Some (fetch_task phone_params 1 false)].
Proof.
  assert (Hwf : wf_object phone_params) by (unfold wf_object; compute_done).
  destruct (updateSearchParams_merges_then_effect_fetches
              default_config phone_params settled_hook Hwf)
    as (_ & _ & _ & Hfetch & _).
  apply (Hfetch 30); [ reflexivity | right; vm_compute; reflexivity ].
Defined.

(** C8, as stated, fails: on the settled hook, with nothing in flight,
    [updateSearchParams] followed by the re-render alone, with no call of
    [refetch], puts a request for the new parameters in flight. *)
Lemma updateSearchParams_then_render_fetches :
  (∀ i, ¬ in_flight settled_hook i) ∧
  let h := run default_config [UpdateSearchParams phone_params; Render 30]
             settled_hook in
  in_flight h 1 ∧
  tasks h !! 1%nat = Some (Some (fetch_task phone_params 1 false)).
Proof.
  split.
  - assert (Htasks : tasks settled_hook = [None]) by (vm_compute; reflexivity).
    intros i (t & Hi & _). rewrite Htasks in Hi.
    by destruct i as [ | [ | i ] ].
  - intros h. split; [ | vm_compute; reflexivity ].
    apply in_flightb_spec. vm_compute. reflexivity.
Qed.

(** ** Supersession *)

Lemma applied_eq h h' :
  applied h' = applied h →
  state h' = state h ∧ productsCache h' = productsCache h ∧
  arrays h' = arrays h ∧ signals h' = signals h.
Proof. unfold applied. intros [= ? ? ? ? ? ? ? ?]. done. Qed.

Lemma aborted_true h c : signals h !! c = Some true → aborted h c = true.
Proof. intros Hc. by apply bool_decide_eq_true. Qed.

Lemma aborted_false h c : signals h !! c = Some false → aborted h c = false.
Proof. intros Hc. apply bool_decide_eq_false. congruence. Qed.

(** The response to a request whose signal is aborted only ends the task. *)
Lemma settle_aborted_fetch i t p c l o now h :
  tasks h !! i = Some (Some t) → kind t = FetchProductsTask p c l →
  signals h !! c = Some true →
  settle i o now h = finish i h.
Proof.
  intros Hi Hk Hab. rewrite (settle_fetchProducts _ _ _ _ _ _ _ _ Hi Hk).
  unfold resume_fetchProducts. rewrite (aborted_true _ _ Hab).
  by destruct (awaiting t).
Qed.

Lemma settle_aborted_frame i t p c l o now h :
  tasks h !! i = Some (Some t) → kind t = FetchProductsTask p c l →
  signals h !! c = Some true →
  let h' := settle i o now h in
  applied h' = applied h ∧ tasks h' !! i = Some None ∧
  (∀ j, j ≠ i → tasks h' !! j = tasks h !! j).
Proof.
  intros Hi Hk Hab h'. subst h'.
  rewrite (settle_aborted_fetch _ _ _ _ _ _ _ _ Hi Hk Hab). simpl.
  split; [ done | split ].
  - apply list_lookup_insert_eq. by eapply lookup_lt_Some.
  - intros j Hj. by apply list_lookup_insert_ne.
Qed.

(** A live request gets its response: the task moves on to the body. *)
Lemma settle_response_ok i t p c l status now h :
  tasks h !! i = Some (Some t) → kind t = FetchProductsTask p c l →
  awaiting t = AwaitFetch → signals h !! c = Some false →
  let h' := settle i (Responded true status) now h in
  applied h' = applied h ∧
  (∃ t', tasks h' !! i = Some (Some t') ∧ kind t' = FetchProductsTask p c l ∧
         awaiting t' = AwaitJson) ∧
  (∀ j, j ≠ i → tasks h' !! j = tasks h !! j).
Proof.
  intros Hi Hk Hph Hlive h'. subst h'.
  rewrite (settle_fetchProducts _ _ _ _ _ _ _ _ Hi Hk).
  unfold resume_fetchProducts. rewrite (aborted_false _ _ Hlive), Hph. simpl.
  split; [ done | split ].
  - eexists.
    split; [ apply list_lookup_insert_eq; by eapply lookup_lt_Some | ].
    split; [ exact Hk | reflexivity ].
  - intros j Hj. by apply list_lookup_insert_ne.
Qed.

(** A live request gets a successful body: the items and the pagination
    replace the state's, and a copy of the items goes to the cache. *)
Lemma settle_body_ok i t p c l body now h :
  tasks h !! i = Some (Some t) → kind t = FetchProductsTask p c l →
  awaiting t = AwaitJson → signals h !! c = Some false →
  success body = true →
  let h' := settle i (Parsed body) now h in
  (array_read (arrays h') (products (state h')) = default [] (data_data body) ∧
   pagination (state h') = data_pagination body ∧
   loading (state h') = false ∧ error (state h') = None ∧
   lastFetchTime (state h') = Some now ∧
   ∃ e, ProductsCache.cache (productsCache h') !! ProductsCache.generateKey p
          = Some e ∧
        timestamp e = now ∧
        array_read (arrays h') (data e) = default [] (data_data body)) ∧
  signals h' = signals h ∧ tasks h' !! i = Some None ∧
  (∀ j, j ≠ i → tasks h' !! j = tasks h !! j).
Proof.
  intros Hi Hk Hph Hlive Hok h'. subst h'.
  rewrite (settle_fetchProducts _ _ _ _ _ _ _ _ Hi Hk).
  unfold resume_fetchProducts. rewrite (aborted_false _ _ Hlive), Hph.
  unfold fetchProducts_apply. rewrite Hok. simpl.
  set (items := default [] (data_data body)).
  assert (Hfetched : array_read (arrays h ++ [items]) (length (arrays h)) = items).
  { unfold array_read. by rewrite lookup_app_r, Nat.sub_diag. }
  split; [ | split; [ done | split ] ].
  - rewrite Hfetched. repeat split.
    + unfold array_read.
      rewrite lookup_app_l by (rewrite length_app; simpl; lia).
      by rewrite lookup_app_r, Nat.sub_diag.
    + eexists. split; [ apply lookup_insert_eq | ]. simpl. split; [ done | ].
      unfold array_read. by rewrite lookup_app_r, Nat.sub_diag.
  - apply list_lookup_insert_eq. by eapply lookup_lt_Some.
  - intros j Hj. by apply list_lookup_insert_ne.
Qed.

(** What [fetchProducts(pB)] does to a call of [fetchProducts] that is
    still pending: its signal is aborted. *)
Lemma fetchProducts_supersedes cfg h a t pA cA lA pB lB now :
  reachable cfg h →
  tasks h !! a = Some (Some t) → kind t = FetchProductsTask pA cA lA →
  let h1 := fetchProducts pB lB now h in
  signals h1 !! cA = Some true ∧ tasks h1 !! a = Some (Some t).
Proof.
  intros Hreach Ha Hk h1.
  pose proof (reachable_controllers_ok _ _ Hreach) as Hok.
  assert (Hctl : controller_of <$> tasks h !! a = Some (Some cA))
    by (rewrite Ha; simpl; by rewrite Hk).
  destruct (all_aborted_after_abort _ _ _ Hok a cA Hctl) as [_ Hab].
  rewrite <- abort_current_signals in Hab.
  subst h1. unfold fetchProducts.
  destruct (ProductsCache.get _ pB now) as [cached pc].
  destruct cached as [x | ], lB; simpl;
    rewrite ?abort_current_tasks;
    (split; [ first [ exact Hab | by apply lookup_app_l_Some ]
            | first [ exact Ha | by apply lookup_app_l_Some ] ]).
Qed.

(** C1: once [fetchProducts(pB)] has been called while the request of an
    earlier [fetchProducts(pA)] was pending, the response to the earlier
    request is never applied, whatever it is and whenever it arrives: it
    changes neither the state, nor the cache, nor the arrays, and schedules
    no retry. When the request for [pB] is answered with a success, the
    state and the cache hold the items and pagination of that answer,
    wherever the response for [pA] falls relative to it. *)
Theorem superseded_fetch_never_applied cfg h a t pA cA lA pB lB now :
  reachable cfg h →
  tasks h !! a = Some (Some t) → kind t = FetchProductsTask pA cA lA →
  let h1 := fetchProducts pB lB now h in
  let b := length (tasks h) in
  (∀ evs o now',
     let h2 := run cfg evs h1 in
     applied (settle a o now' h2) = applied h2) ∧
  (lB = true ∨ (ProductsCache.get (productsCache h) pB now).1 = None →
   ∀ oA nowA status now1 body now2 evs,
     success body = true →
     evs ∈ [ [Settle a oA nowA; Settle b (Responded true status) now1;
              Settle b (Parsed body) now2];
             [Settle b (Responded true status) now1; Settle a oA nowA;
              Settle b (Parsed body) now2];
             [Settle b (Responded true status) now1;
              Settle b (Parsed body) now2; Settle a oA nowA] ] →
     let hf := run cfg evs h1 in
     array_read (arrays hf) (products (state hf)) = default [] (data_data body) ∧
     pagination (state hf) = data_pagination body ∧
     loading (state hf) = false ∧ error (state hf) = None ∧
     lastFetchTime (state hf) = Some now2 ∧
     ∃ e, ProductsCache.cache (productsCache hf) !! ProductsCache.generateKey pB
            = Some e ∧
          timestamp e = now2 ∧
          array_read (arrays hf) (data e) = default [] (data_data body)).
Proof.
  intros Hreach Ha Hk h1 b.
  destruct (fetchProducts_supersedes cfg h a t pA cA lA pB lB now Hreach Ha Hk)
    as [HabA HtA]. fold h1 in HabA, HtA.
  split.
  - intros evs o now' h2.
    destruct (advances_run cfg evs h1) as [Hsig Htasks]. fold h2 in Hsig, Htasks.
    destruct (Htasks a _ HtA) as (slot & Hslot & Hev).
    destruct Hev as [-> | (t0 & t' & [= <-] & -> & Hk')].
    + unfold settle. by rewrite Hslot.
    + eapply settle_aborted_frame; [ exact Hslot | by rewrite Hk' | by apply Hsig ].
  - intros Hreq oA nowA status now1 body now2 evs Hok Hevs hf.
    assert (Ha_lt : (a < b)%nat) by (by eapply lookup_lt_Some).
    assert (Hab : a ≠ b) by lia.
    assert (HtB : tasks h1 !! b
                  = Some (Some (fetch_task pB (length (signals h)) lB))).
    { subst h1. rewrite fetchProducts_request by done. simpl.
      rewrite abort_current_tasks. by rewrite lookup_app_r, Nat.sub_diag. }
    assert (HliveB : signals h1 !! length (signals h) = Some false).
    { subst h1. rewrite fetchProducts_request by done. simpl.
      rewrite lookup_app_r by (by rewrite abort_current_length).
      by rewrite abort_current_length, Nat.sub_diag. }
    subst hf. set_unfold in Hevs.
    destruct Hevs as [-> | [-> | [-> | []]]]; simpl.
    + destruct (settle_aborted_frame a t pA cA lA oA nowA h1 HtA Hk HabA)
        as (HfrA & _ & HothA).
      set (s1 := settle a oA nowA h1) in *.
      assert (Hsig1 : signals s1 = signals h1) by (by apply applied_eq).
      destruct (settle_response_ok b (fetch_task pB (length (signals h)) lB) pB
                  (length (signals h)) lB status now1 s1)
        as (HfrB & (t' & HtB' & Hk' & Hph') & _);
        [ by rewrite HothA | done | done | by rewrite Hsig1 | ].
      set (s2 := settle b (Responded true status) now1 s1) in *.
      assert (Hsig2 : signals s2 = signals h1)
        by (rewrite <- Hsig1; by apply applied_eq).
      destruct (settle_body_ok b t' pB (length (signals h)) lB body now2 s2)
        as (Hres & _); [ done | done | done | by rewrite Hsig2 | done | ].
      exact Hres.
    + destruct (settle_response_ok b (fetch_task pB (length (signals h)) lB) pB
                  (length (signals h)) lB status now1 h1)
        as (HfrB & (t' & HtB' & Hk' & Hph') & HothB); [ done.. | ].
      set (s1 := settle b (Responded true status) now1 h1) in *.
      assert (Hsig1 : signals s1 = signals h1) by (by apply applied_eq).
      destruct (settle_aborted_frame a t pA cA lA oA nowA s1)
        as (HfrA & _ & HothA);
        [ by rewrite HothB | done | by rewrite Hsig1 | ].
      set (s2 := settle a oA nowA s1) in *.
      assert (Hsig2 : signals s2 = signals h1)
        by (rewrite <- Hsig1; by apply applied_eq).
      destruct (settle_body_ok b t' pB (length (signals h)) lB body now2 s2)
        as (Hres & _);
        [ by rewrite HothA | done | done | by rewrite Hsig2 | done | ].
      exact Hres.
    + destruct (settle_response_ok b (fetch_task pB (length (signals h)) lB) pB
                  (length (signals h)) lB status now1 h1)
        as (HfrB & (t' & HtB' & Hk' & Hph') & HothB); [ done.. | ].
      set (s1 := settle b (Responded true status) now1 h1) in *.
      assert (Hsig1 : signals s1 = signals h1) by (by apply applied_eq).
      destruct (settle_body_ok b t' pB (length (signals h)) lB body now2 s1)
        as (Hres & Hsig2 & _ & HothB2);
        [ done | done | done | by rewrite Hsig1 | done | ].
      set (s2 := settle b (Parsed body) now2 s1) in *.
      destruct (settle_aborted_frame a t pA cA lA oA nowA s2)
        as (HfrA & _);
        [ by rewrite HothB2, HothB | done | by rewrite Hsig2, Hsig1 | ].
      set (s3 := settle a oA nowA s2) in *.
      destruct (applied_eq _ _ HfrA) as (Hst & Hpc & Har & _).
      rewrite Hst, Hpc, Har. exact Hres.
Qed.

Lemma superseded_fetch_never_applied_witness :
  let h1 := fetchProducts phone_params true 1 (mount default_config ∅ [] 0) in
  let h2 := run default_config
              [Settle 1 (Responded true 200) 5;
               Settle 1 (Parsed first_page_body) 6] h1 in
  applied (settle 0 (Parsed second_page_body) 7 h2) = applied h2.
Proof.
  destruct (superseded_fetch_never_applied default_config
              (mount default_config ∅ [] 0) 0%nat (fetch_task [] 0 true)
              [] 0%nat true phone_params true 1)
    as [Hnever _].
  - apply reachable_mount.
  - vm_compute. reflexivity.
  - reflexivity.
  - apply Hnever.
Defined.

(** ** Requests in flight *)

(** X16: in every reachable state, among the calls of [fetchProducts] at
    most one has a request that has not been cancelled. *)
Lemma one_live_fetch cfg h i j :
  reachable cfg h → live_fetch h i → live_fetch h j → i = j.
Proof.
  intros (Href & Hslots & Huniq)%reachable_controllers_ok
         (ci & Hi & Hli) (cj & Hj & Hlj).
  assert (Hcur : ∀ k c, controller_of <$> tasks h !! k = Some (Some c) →
                        aborted h c = false → abortControllerRef h = Some c).
  { intros k c Hk Hl. destruct (Hslots k c Hk) as [_ [Hc | Hab]]; [ done | ].
    by rewrite (aborted_true _ _ Hab) in Hl. }
  pose proof (Hcur i ci Hi Hli) as Hci. pose proof (Hcur j cj Hj Hlj) as Hcj.
  assert (ci = cj) as -> by congruence. by eapply Huniq.
Qed.

(** C7 fails on the code: [loadMore] gives its request no signal, so nothing
    can cancel it. On the settled hook, [loadMore()] followed by the
    re-render (which runs the fetch effect again, [state.loading] having
    changed) leaves the load-more request and a [fetchProducts] request in
    flight together. *)
Theorem loadMore_and_fetch_in_flight_together :
  let h := run default_config [LoadMore; Render 30] settled_hook in
  reachable default_config h ∧
  in_flight h 1 ∧ in_flight h 2 ∧
  tasks h !! 1%nat
    = Some (Some {| kind := LoadMoreTask; awaiting := AwaitFetch;
                    query := [("page", "2")] |}) ∧
  tasks h !! 2%nat = Some (Some (fetch_task [] 1 true)).
Proof.
  intros h. split_all.
  - apply (reachable_run default_config [LoadMore; Render 30]).
    apply (reachable_run default_config
             [Settle 0 (Responded true 200) 10;
              Settle 0 (Parsed first_page_body) 20; Render 21; Render 22]).
    apply reachable_mount.
  - apply in_flightb_spec. vm_compute. reflexivity.
  - apply in_flightb_spec. vm_compute. reflexivity.
  - vm_compute. reflexivity.
  - vm_compute. reflexivity.
Qed.

(** ** Retries *)

(** X17: in every reachable state at most one retry timer is armed. *)
Lemma at_most_one_retry_pending cfg h i j :
  reachable cfg h → retry_pending h i → retry_pending h j → i = j.
Proof.
  intros Hok%reachable_retry_ok (di & pi & li & Hi) (dj & pj & lj & Hj).
  pose proof (Hok _ _ _ _ Hi). pose proof (Hok _ _ _ _ Hj). congruence.
Qed.

(** With an empty [retryTimeoutRef], [handleError] with a retry closure arms
    one timer of 2000 ms that will call [fetchProducts] again with the same
    argument; with a retry pending it arms nothing. *)
Lemma handleError_schedules_retry cfg e p l h :
  (retryTimeoutRef h = None →
   timers (handleError e (Some (p, l)) h)
     = timers h ++ [Some (RetryTimer 2000 p l)] ∧
   retryTimeoutRef (handleError e (Some (p, l)) h) = Some (length (timers h))) ∧
  (reachable cfg h → ∀ i, retry_pending h i →
   timers (handleError e (Some (p, l)) h) = timers h ∧
   retryTimeoutRef (handleError e (Some (p, l)) h) = Some i).
Proof.
  split.
  - intros Href. unfold handleError. simpl. by rewrite Href.
  - intros Hok%reachable_retry_ok i (d & p' & l' & Hi).
    pose proof (Hok _ _ _ _ Hi) as Href.
    unfold handleError. simpl. by rewrite Href.
Qed.

(** The timer that fires empties the ref and calls [fetchProducts] with the
    arguments of the failed call. *)
Lemma retry_fires i delay p l now h :
  timers h !! i = Some (Some (RetryTimer delay p l)) →
  timer_fires i now h
  = fetchProducts p l now (set_retryTimeoutRef None (clear_timer i h)).
Proof. intros Hi. unfold timer_fires. by rewrite Hi. Qed.

(** C4 fails on the code: the cleanup of the fetch effect clears the retry
    timer and leaves its id in [retryTimeoutRef]. On the hook mounted with
    the default configuration, the first request fails with status 500 and a
    retry is armed; the two renders that follow clear it and start a new
    request (task 2). When that request fails in turn, with no retry
    pending, the error is recorded and no retry is scheduled. *)
Theorem failed_fetch_schedules_no_retry :
  let h0 := mount default_config ∅ [] 0 in
  let h1 := run default_config [Settle 0 (Responded false 500) 10] h0 in
  let h := run default_config [Render 11; Render 12] h1 in
  let h' := run default_config [Settle 2 (Responded false 500) 20] h in
  retry_pending h1 0 ∧
  reachable default_config h ∧
  in_flight h 2 ∧ (∀ i, ¬ retry_pending h i) ∧
  retryTimeoutRef h = Some 0%nat ∧
  error (state h') = Some "HTTP error! status: 500" ∧
  tasks h' !! 2%nat = Some None ∧
  timers h' = timers h ∧ (∀ i, ¬ retry_pending h' i).
Proof.
  intros h0 h1 h h'.
  assert (Hnone : ∀ i delay p l,
            [None] !! i ≠ Some (Some (RetryTimer delay p l)))
    by (intros [ | [ | i ] ] *; discriminate).
  assert (Htm : timers h = [None]) by (vm_compute; reflexivity).
  assert (Htm' : timers h' = [None]) by (vm_compute; reflexivity).
  split_all; try (vm_compute; reflexivity).
  - exists 2000, [], true. vm_compute. reflexivity.
  - apply reachable_run, reachable_run, reachable_mount.
  - apply in_flightb_spec. vm_compute. reflexivity.
  - intros i (d & p & l & Hi). rewrite Htm in Hi. by apply Hnone in Hi.
  - intros i (d & p & l & Hi). rewrite Htm' in Hi. by apply Hnone in Hi.
Qed.

(** * Further properties of the code *)

(** ** The cache *)

(** X1: [set] stores a copy, so what the caller later does to the array it
    passed to [set] is not seen by [get]. *)
Theorem set_copy_isolates_argument pc m params items now now' f :
  (items < length m)%nat →
  now' - now ≤ ProductsCache.timeout pc →
  let stored := ProductsCache.set pc m params items now in
  let mutated := array_mutate items f stored.1 in
  ∃ a, ProductsCache.get stored.2 params now' = (Some a, stored.2) ∧
       array_read mutated a = array_read m items.
Proof.
  intros Hvalid Hlive stored mutated.
  destruct (set_stores_copy pc m params items now) as (He & Ht & Hcopy & _).
  fold stored in He, Ht, Hcopy.
  exists (length m). split.
  - rewrite (get_live _ _ _ _ He); [ done | simpl; lia ].
  - subst mutated. unfold array_mutate, array_read at 1.
    rewrite list_lookup_insert_ne by lia. exact Hcopy.
Qed.

Lemma set_copy_isolates_argument_witness :
  ∃ a, ProductsCache.get
         (ProductsCache.set (ProductsCache.new None) [[phone_a]]
            phone_params 0%nat 0).2 phone_params 5
       = (Some a,
          (ProductsCache.set (ProductsCache.new None) [[phone_a]]
             phone_params 0%nat 0).2) ∧
       array_read
         (array_mutate 0 (fun items => items ++ [phone_b])
            (ProductsCache.set (ProductsCache.new None) [[phone_a]]
               phone_params 0%nat 0).1) a
       = [phone_a].
Proof.
  apply (set_copy_isolates_argument (ProductsCache.new None) [[phone_a]]
           phone_params 0%nat 0 5 (fun items => items ++ [phone_b])).
  - simpl. lia.
  - simpl. lia.
Defined.

(** X2: [set] for one key leaves the lookups of every other key, and the
    arrays that existed, as they were. *)
Theorem set_leaves_other_keys pc m p q items t now :
  ProductsCache.generateKey p ≠ ProductsCache.generateKey q →
  let stored := ProductsCache.set pc m p items t in
  (ProductsCache.get stored.2 q now).1 = (ProductsCache.get pc q now).1 ∧
  (∀ a, (a < length m)%nat → array_read stored.1 a = array_read m a).
Proof.
  intros Hne stored. split.
  - subst stored. unfold ProductsCache.get, ProductsCache.set. simpl.
    rewrite lookup_insert_ne by done.
    destruct (ProductsCache.cache pc !! ProductsCache.generateKey q) as [e | ];
      [ | done ].
    by destruct (now - timestamp e >? ProductsCache.timeout pc).
  - by destruct (set_stores_copy pc m p items t) as (_ & _ & _ & Hold).
Qed.

Lemma set_leaves_other_keys_witness :
  (ProductsCache.get
     (ProductsCache.set (ProductsCache.new None) [[phone_a]]
        phone_params 0%nat 0).2 [] 5).1
  = (ProductsCache.get (ProductsCache.new None) [] 5).1.
Proof.
  apply (set_leaves_other_keys (ProductsCache.new None) [[phone_a]]
           phone_params [] 0%nat 0 5).
  vm_compute. discriminate.
Defined.

(** X3: a second [set] for the same parameters replaces the entry: the
    lookup returns the items of the second [set], and the time to live runs
    from the second [set], however old the first one was. *)
Theorem set_replaces_entry pc m params first second t1 t2 now :
  now - t2 ≤ ProductsCache.timeout pc →
  let s1 := ProductsCache.set pc m params first t1 in
  let s2 := ProductsCache.set s1.2 s1.1 params second t2 in
  ∃ a, ProductsCache.get s2.2 params now = (Some a, s2.2) ∧
       array_read s2.1 a = array_read s1.1 second.
Proof.
  intros Hlive s1 s2.
  destruct (set_stores_copy s1.2 s1.1 params second t2) as (He & Ht & Hcopy & _).
  fold s2 in He, Ht, Hcopy.
  exists (length s1.1). split; [ | done ].
  rewrite (get_live _ _ _ _ He); [ done | ].
  rewrite Ht. simpl. lia.
Qed.

Lemma set_replaces_entry_witness :
  let s1 := ProductsCache.set (ProductsCache.new None) [[phone_a]; [phone_b]]
              phone_params 0%nat 0 in
  let s2 := ProductsCache.set s1.2 s1.1 phone_params 1%nat 400000 in
  ∃ a, ProductsCache.get s2.2 phone_params 500000 = (Some a, s2.2) ∧
       array_read s2.1 a = [phone_b].
Proof.
  apply (set_replaces_entry (ProductsCache.new None) [[phone_a]; [phone_b]]
           phone_params 0%nat 1%nat 0 400000 500000).
  simpl. lia.
Defined.

(** X4: [clearCache()] leaves the state and the tasks alone, and after it
    every [fetchProducts] issues a request, whatever [state.loading] it
    sees and whatever was cached. *)
Theorem clearCache_forces_request params l now h :
  let h' := fetchProducts params l now (clearCache h) in
  state (clearCache h) = state h ∧ tasks (clearCache h) = tasks h ∧
  tasks h' = tasks h ++ [Some (fetch_task params (length (signals h)) l)] ∧
  loading (state h') = true ∧
  products (state h') = products (state h).
Proof.
  intros h'. subst h'. split; [ done | split; [ done | ] ].
  rewrite fetchProducts_request by (right; reflexivity).
  simpl. rewrite abort_current_tasks.
  destruct (abort_current_frame (clearCache h)) as (-> & _). done.
Qed.

(** ** Failures *)

Lemma handleError_retry_cases e p l h :
  (retryTimeoutRef h = None →
   timers (handleError e (Some (p, l)) h)
     = timers h ++ [Some (RetryTimer 2000 p l)] ∧
   retryTimeoutRef (handleError e (Some (p, l)) h) = Some (length (timers h))) ∧
  (is_Some (retryTimeoutRef h) →
   timers (handleError e (Some (p, l)) h) = timers h ∧
   retryTimeoutRef (handleError e (Some (p, l)) h) = retryTimeoutRef h).
Proof.
  unfold handleError. simpl. split.
  - by intros ->.
  - intros [r Hr]. by rewrite Hr.
Qed.

Lemma fetchProducts_catch_error e p l h :
  is_abort e = false →
  fetchProducts_catch e p l h = handleError e (Some (p, l)) h.
Proof.
  unfold fetchProducts_catch, is_abort.
  destruct e as [name msg | | ]; [ | done | done ]. by intros ->.
Qed.

(** X5: a request of [fetchProducts] that has not been cancelled and is
    answered with a non-2xx status ends as an error: the message carries the
    status, [loading] is false, the items, the pagination, the cache and the
    arrays are untouched. With an empty [retryTimeoutRef] one retry of 2000
    ms with the same parameters is armed; otherwise none. *)
Theorem fetch_http_failure_recorded h i t p c l status now :
  tasks h !! i = Some (Some t) → kind t = FetchProductsTask p c l →
  awaiting t = AwaitFetch → signals h !! c = Some false →
  let h' := settle i (Responded false status) now h in
  error (state h') = Some ("HTTP error! status: " +:+ string_of_Z status) ∧
  loading (state h') = false ∧
  products (state h') = products (state h) ∧
  pagination (state h') = pagination (state h) ∧
  productsCache h' = productsCache h ∧ arrays h' = arrays h ∧
  tasks h' !! i = Some None ∧
  (retryTimeoutRef h = None →
   timers h' = timers h ++ [Some (RetryTimer 2000 p l)] ∧
   retryTimeoutRef h' = Some (length (timers h))) ∧
  (is_Some (retryTimeoutRef h) →
   timers h' = timers h ∧ retryTimeoutRef h' = retryTimeoutRef h).
Proof.
  intros Hi Hk Hph Hlive h'. subst h'.
  rewrite (settle_fetchProducts _ _ _ _ _ _ _ _ Hi Hk).
  unfold resume_fetchProducts. rewrite (aborted_false _ _ Hlive), Hph.
  rewrite fetchProducts_catch_error by reflexivity.
  destruct (handleError_frame (http_error status) (Some (p, l)) (finish i h))
    as (-> & -> & -> & -> & -> & -> & -> & _).
  split_all; try done.
  - simpl. apply list_lookup_insert_eq. by eapply lookup_lt_Some.
  - apply (handleError_retry_cases (http_error status) p l (finish i h)).
  - apply (handleError_retry_cases (http_error status) p l (finish i h)).
Qed.

Lemma fetch_http_failure_recorded_witness :
  error (state (settle 0 (Responded false 503) 10
                  (mount default_config ∅ [] 0)))
  = Some "HTTP error! status: 503".
Proof.
  apply (fetch_http_failure_recorded (mount default_config ∅ [] 0) 0%nat
           (fetch_task [] 0 true) [] 0%nat true 503 10);
    reflexivity.
Defined.

(** X6: a rejection whose reason is an [Error] named [AbortError] is not an
    error for [fetchProducts]: whatever the task was waiting for, it ends
    and nothing else changes (no message, no retry). *)
Theorem abort_rejection_ignored h i t p c l msg now :
  tasks h !! i = Some (Some t) → kind t = FetchProductsTask p c l →
  let h' := settle i (Rejected (ThrownError "AbortError" msg)) now h in
  applied h' = applied h ∧ tasks h' !! i = Some None.
Proof.
  intros Hi Hk h'. subst h'.
  rewrite (settle_fetchProducts _ _ _ _ _ _ _ _ Hi Hk).
  unfold resume_fetchProducts.
  assert (Hfin : tasks (finish i h) !! i = Some None)
    by (simpl; apply list_lookup_insert_eq; by eapply lookup_lt_Some).
  destruct (aborted h c), (awaiting t); by split.
Qed.

Lemma abort_rejection_ignored_witness :
  applied (settle 0 (Rejected (ThrownError "AbortError" "stop")) 10
             (mount default_config ∅ [] 0))
  = applied (mount default_config ∅ [] 0).
Proof.
  apply (abort_rejection_ignored (mount default_config ∅ [] 0) 0%nat
           (fetch_task [] 0 true) [] 0%nat true "stop" 10);
    reflexivity.
Defined.

(** X7: any other rejection of a request that has not been cancelled is
    recorded, in either phase: the message is the [Error]'s message, the
    string itself when a string was thrown, and a fixed text otherwise;
    [loading] is false and the items are kept. *)
Theorem fetch_rejection_recorded h i t p c l e now :
  tasks h !! i = Some (Some t) → kind t = FetchProductsTask p c l →
  signals h !! c = Some false → is_abort e = false →
  let h' := settle i (Rejected e) now h in
  error (state h')
    = Some match e with
           | ThrownError _ m => m
           | ThrownString s => s
           | ThrownOther => "An unexpected error occurred"
           end ∧
  loading (state h') = false ∧
  products (state h') = products (state h) ∧
  productsCache h' = productsCache h ∧
  tasks h' !! i = Some None.
Proof.
  intros Hi Hk Hlive Hne h'. subst h'.
  rewrite (settle_fetchProducts _ _ _ _ _ _ _ _ Hi Hk).
  unfold resume_fetchProducts. rewrite (aborted_false _ _ Hlive).
  replace (match awaiting t with
           | AwaitFetch => _ | AwaitJson => _ end)
    with (handleError e (Some (p, l)) (finish i h))
    by (symmetry; destruct (awaiting t); by apply fetchProducts_catch_error).
  destruct (handleError_frame e (Some (p, l)) (finish i h))
    as (-> & _ & -> & _ & -> & -> & -> & _).
  split_all; try done.
  simpl. apply list_lookup_insert_eq. by eapply lookup_lt_Some.
Qed.

Lemma fetch_rejection_recorded_witness :
  error (state (settle 0 (Rejected (ThrownString "offline")) 10
                  (mount default_config ∅ [] 0)))
  = Some "offline".
Proof.
  apply (fetch_rejection_recorded (mount default_config ∅ [] 0) 0%nat
           (fetch_task [] 0 true) [] 0%nat true (ThrownString "offline") 10);
    reflexivity.
Defined.

(** X8: a failure of [loadMore] (a rejection, whatever its reason, or a
    non-2xx status) is recorded as an error with [loading] false; the items
    loaded so far, the pagination and the cache are kept, and no retry is
    ever scheduled for it. *)
Theorem loadMore_failure_recorded_without_retry h i t o e now :
  tasks h !! i = Some (Some t) → kind t = LoadMoreTask →
  o = Rejected e ∨
  (∃ status, awaiting t = AwaitFetch ∧ o = Responded false status ∧
             e = http_error status) →
  let h' := settle i o now h in
  error (state h') = Some (error_message e) ∧
  loading (state h') = false ∧
  products (state h') = products (state h) ∧
  pagination (state h') = pagination (state h) ∧
  productsCache h' = productsCache h ∧ arrays h' = arrays h ∧
  timers h' = timers h ∧ retryTimeoutRef h' = retryTimeoutRef h ∧
  tasks h' !! i = Some None.
Proof.
  intros Hi Hk Hfail h'. subst h'.
  rewrite (settle_loadMore _ _ _ _ _ Hi Hk). unfold resume_loadMore.
  assert (Hfin : tasks (finish i h) !! i = Some None)
    by (simpl; apply list_lookup_insert_eq; by eapply lookup_lt_Some).
  assert (Herr :
    let h' := handleError e None (finish i h) in
    error (state h') = Some (error_message e) ∧
    loading (state h') = false ∧
    products (state h') = products (state h) ∧
    pagination (state h') = pagination (state h) ∧
    productsCache h' = productsCache h ∧ arrays h' = arrays h ∧
    timers h' = timers h ∧ retryTimeoutRef h' = retryTimeoutRef h ∧
    tasks h' !! i = Some None).
  { simpl. by split_all. }
  destruct Hfail as [-> | (status & Hph & -> & ->)].
  - destruct (awaiting t); apply Herr.
  - rewrite Hph. apply Herr.
Qed.

Lemma loadMore_failure_recorded_without_retry_witness :
  let h := run default_config [LoadMore] settled_hook in
  let h' := settle 1 (Rejected (ThrownError "AbortError" "stop")) 40 h in
  error (state h') = Some "stop" ∧ timers h' = timers h.
Proof.
  intros h h'.
  destruct (loadMore_failure_recorded_without_retry h 1%nat
              {| kind := LoadMoreTask; awaiting := AwaitFetch;
                 query := [("page", "2")] |}
              (Rejected (ThrownError "AbortError" "stop"))
              (ThrownError "AbortError" "stop") 40)
    as (Herr & _ & _ & _ & _ & _ & Htm & _).
  - vm_compute. reflexivity.
  - reflexivity.
  - by left.
  - split; [ exact Herr | exact Htm ].
Defined.

(** X9: [loadMore()] does nothing at all (no request, no change of state)
    exactly when there is no pagination yet, when the pagination has no next
    page, or when the hook is loading; in every other case it issues a
    request. *)
Theorem loadMore_guarded h :
  loadMore h = h ↔
  seen_pagination h = None ∨
  (∃ pg, seen_pagination h = Some pg ∧ has_next_page pg = false) ∨
  seen_loading h = true.
Proof.
  unfold loadMore. split.
  - destruct (seen_pagination h) as [pg | ]; [ | by left ].
    destruct (has_next_page pg) eqn:Hnext; [ | right; left; by exists pg ].
    destruct (seen_loading h); [ by right; right | ].
    simpl. intros Heq%(f_equal tasks)%(f_equal length).
    simpl in Heq. rewrite length_app in Heq. simpl in Heq. lia.
  - intros [-> | [(pg & -> & ->) | Hl]]; [ done | done | ].
    destruct (seen_pagination h) as [pg | ]; [ | done ].
    by rewrite Hl, orb_true_r.
Qed.

(** ** Fetching and the cache *)

(** X10: once a request of [fetchProducts(params)] has been answered with a
    success at time [now], a later [fetchProducts(params)] that sees
    [state.loading] false, within the time to live, publishes the same items
    from the cache and issues no request. *)
Theorem fetched_items_served_from_cache h i t p c l body now now' :
  tasks h !! i = Some (Some t) → kind t = FetchProductsTask p c l →
  awaiting t = AwaitJson → signals h !! c = Some false →
  success body = true →
  now' - now ≤ ProductsCache.timeout (productsCache h) →
  let h1 := settle i (Parsed body) now h in
  let h2 := fetchProducts p false now' h1 in
  tasks h2 = tasks h1 ∧
  array_read (arrays h2) (products (state h2)) = default [] (data_data body) ∧
  error (state h2) = None.
Proof.
  intros Hi Hk Hph Hlive Hok Hfresh h1 h2.
  assert (Hh1 : h1 = fetchProducts_apply p l body now (finish i h)).
  { subst h1. rewrite (settle_fetchProducts _ _ _ _ _ _ _ _ Hi Hk).
    unfold resume_fetchProducts. by rewrite (aborted_false _ _ Hlive), Hph. }
  unfold fetchProducts_apply in Hh1. rewrite Hok in Hh1. simpl in Hh1.
  set (items := default [] (data_data body)) in *.
  set (e := {| data := S (length (arrays h)); timestamp := now |}).
  assert (Hentry : ProductsCache.cache (productsCache h1)
                     !! ProductsCache.generateKey p = Some e).
  { rewrite Hh1. simpl. rewrite length_app. simpl.
    rewrite Nat.add_1_r. apply lookup_insert_eq. }
  assert (Hget : ProductsCache.get (productsCache h1) p now'
                 = (Some (data e), productsCache h1)).
  { apply get_live; [ exact Hentry | ]. rewrite Hh1. simpl. lia. }
  subst h2. rewrite (fetchProducts_hit _ _ _ _ _ Hget). simpl.
  rewrite abort_current_tasks. split_all; try done.
  rewrite Hh1. simpl. unfold array_read.
  rewrite lookup_app_r by (rewrite length_app; simpl; lia).
  rewrite length_app. simpl. rewrite Nat.add_1_r, Nat.sub_diag. simpl.
  rewrite lookup_app_r by lia. by rewrite Nat.sub_diag.
Qed.

Lemma fetched_items_served_from_cache_witness :
  let h := settle 0 (Responded true 200) 10 (mount default_config ∅ [] 0) in
  let h1 := settle 0 (Parsed first_page_body) 20 h in
  let h2 := fetchProducts [] false 30 h1 in
  tasks h2 = tasks h1 ∧
  array_read (arrays h2) (products (state h2)) = [phone_a; phone_b].
Proof.
  intros h h1 h2.
  destruct (fetched_items_served_from_cache h 0%nat
              {| kind := FetchProductsTask [] 0 true; awaiting := AwaitJson;
                 query := [] |}
              [] 0%nat true first_page_body 20 30)
    as (Ht & Hitems & _); try reflexivity.
  - vm_compute. discriminate.
  - split; [ exact Ht | exact Hitems ].
Defined.

(** X11: the same second call after the time to live has run out finds the
    entry expired: it removes it from the cache and issues a new request,
    whatever [state.loading] it sees. *)
Theorem expired_entry_refetched h i t p c l body now now' l' :
  tasks h !! i = Some (Some t) → kind t = FetchProductsTask p c l →
  awaiting t = AwaitJson → signals h !! c = Some false →
  success body = true →
  now' - now > ProductsCache.timeout (productsCache h) →
  let h1 := settle i (Parsed body) now h in
  let h2 := fetchProducts p l' now' h1 in
  tasks h2 = tasks h1 ++ [Some (fetch_task p (length (signals h1)) l')] ∧
  ProductsCache.cache (productsCache h2) !! ProductsCache.generateKey p = None ∧
  loading (state h2) = true.
Proof.
  intros Hi Hk Hph Hlive Hok Hstale h1 h2.
  assert (Hh1 : h1 = fetchProducts_apply p l body now (finish i h)).
  { subst h1. rewrite (settle_fetchProducts _ _ _ _ _ _ _ _ Hi Hk).
    unfold resume_fetchProducts. by rewrite (aborted_false _ _ Hlive), Hph. }
  unfold fetchProducts_apply in Hh1. rewrite Hok in Hh1. simpl in Hh1.
  set (e := {| data := S (length (arrays h)); timestamp := now |}).
  assert (Hentry : ProductsCache.cache (productsCache h1)
                     !! ProductsCache.generateKey p = Some e).
  { rewrite Hh1. simpl. rewrite length_app. simpl.
    rewrite Nat.add_1_r. apply lookup_insert_eq. }
  assert (Hget : ProductsCache.get (productsCache h1) p now'
                 = (None, {| ProductsCache.cache :=
                               delete (ProductsCache.generateKey p)
                                 (ProductsCache.cache (productsCache h1));
                             ProductsCache.timeout :=
                               ProductsCache.timeout (productsCache h1) |})).
  { apply (get_expired _ _ _ e); [ exact Hentry | ]. rewrite Hh1. simpl. lia. }
  subst h2. rewrite fetchProducts_request by (right; by rewrite Hget).
  rewrite Hget. simpl. rewrite abort_current_tasks.
  split_all; [ done | apply lookup_delete_eq | done ].
Qed.

Lemma expired_entry_refetched_witness :
  let h := settle 0 (Responded true 200) 10 (mount default_config ∅ [] 0) in
  let h1 := settle 0 (Parsed first_page_body) 20 h in
  let h2 := fetchProducts [] false 300021 h1 in
  tasks h2 = tasks h1 ++ [Some (fetch_task [] 1 false)].
Proof.
  intros h h1 h2.
  destruct (expired_entry_refetched h 0%nat
              {| kind := FetchProductsTask [] 0 true; awaiting := AwaitJson;
                 query := [] |}
              [] 0%nat true first_page_body 20 300021 false)
    as (Ht & _);
    [ reflexivity | reflexivity | reflexivity | reflexivity | reflexivity
    | reflexivity | exact Ht ].
Defined.

(** X12: the cache is written by nothing but the successful body of a
    [fetchProducts] request that has not been cancelled: failures,
    responses to cancelled requests and everything about [loadMore] leave it
    as it is. *)
Theorem cache_written_only_by_successful_fetch i o now h :
  productsCache (settle i o now h) ≠ productsCache h →
  ∃ t p c l body,
    tasks h !! i = Some (Some t) ∧ kind t = FetchProductsTask p c l ∧
    awaiting t = AwaitJson ∧ aborted h c = false ∧
    o = Parsed body ∧ success body = true.
Proof.
  intros Hchanged. unfold settle in Hchanged.
  destruct (tasks h !! i) as [[t | ] | ] eqn:Hi; [ | done | done ].
  assert (Hcatch : ∀ e p l,
    productsCache (fetchProducts_catch e p l (finish i h)) = productsCache h).
  { intros e p l. unfold fetchProducts_catch.
    destruct e as [name msg | | ]; [ destruct (String.eqb name _) | | ];
      first [ done | apply (handleError_frame _ _ (finish i h)) ]. }
  destruct (kind t) as [p c l | ] eqn:Hk.
  - unfold resume_fetchProducts in Hchanged.
    destruct (aborted h c) eqn:Hab.
    { destruct (awaiting t); cbn iota in Hchanged;
        by (exfalso; apply Hchanged, Hcatch). }
    destruct (awaiting t) eqn:Hph, o as [[ | ] status | body | e];
      cbn iota in Hchanged; try done; try (by (exfalso; apply Hchanged, Hcatch)).
    unfold fetchProducts_apply in Hchanged.
    destruct (success body) eqn:Hok; [ | by (exfalso; apply Hchanged, Hcatch) ].
    by exists t, p, c, l, body.
  - exfalso; apply Hchanged, resume_loadMore_cache.
Qed.

Lemma cache_written_only_by_successful_fetch_witness :
  ∃ t p c l body,
    tasks (settle 0 (Responded true 200) 10 (mount default_config ∅ [] 0))
      !! 0%nat = Some (Some t) ∧
    kind t = FetchProductsTask p c l ∧ awaiting t = AwaitJson ∧
    aborted (settle 0 (Responded true 200) 10 (mount default_config ∅ [] 0)) c
      = false ∧
    Parsed first_page_body = Parsed body ∧ success body = true.
Proof.
  apply (cache_written_only_by_successful_fetch 0 (Parsed first_page_body) 20
           (settle 0 (Responded true 200) 10 (mount default_config ∅ [] 0))).
  intros Heq.
  apply (f_equal (fun pc => ProductsCache.cache pc !! ProductsCache.generateKey []))
    in Heq.
  vm_compute in Heq. discriminate.
Defined.

(** X13: on mount with [autoFetch], [state.loading] starts true, so the
    first [fetchProducts] never serves the cache: a request for the initial
    parameters is issued even when the shared cache holds a live entry for
    them. Without [autoFetch] the mount issues nothing and [loading] starts
    false. In both cases the item list starts empty. *)
Theorem mount_fetches_past_cache cfg entries m now :
  let h := mount cfg entries m now in
  array_read (arrays h) (products (state h)) = [] ∧
  loading (state h) = autoFetch cfg ∧
  tasks h = (if autoFetch cfg
             then [Some (fetch_task (initialParams cfg) 0 true)] else []) ∧
  abortControllerRef h = (if autoFetch cfg then Some 0%nat else None).
Proof.
  intros h. subst h. unfold mount. simpl.
  set (h0 := refresh_effect cfg _).
  assert (Hh0 : tasks h0 = [] ∧ signals h0 = [] ∧ abortControllerRef h0 = None ∧
                state h0 = {| products := length m; loading := autoFetch cfg;
                              error := None; pagination := None;
                              lastFetchTime := None |} ∧
                arrays h0 = m ++ [[]] ∧
                seen_params h0 = initialParams cfg ∧
                seen_loading h0 = autoFetch cfg).
  { subst h0. unfold refresh_effect. by destruct (refresh_enabled cfg). }
  destruct Hh0 as (Ht & Hs & Hr & Hst & Har & Hp & Hl).
  unfold fetch_effect. destruct (autoFetch cfg) eqn:Hauto.
  - rewrite Hp, Hl, fetchProducts_request by by left.
    simpl. rewrite abort_current_tasks, abort_current_length, Ht, Hs.
    destruct (abort_current_frame h0) as (-> & _).
    rewrite Hst, Har. simpl. split_all; try done.
    unfold array_read. by rewrite lookup_app_r, Nat.sub_diag.
  - rewrite Ht, Hr, Hst, Har. simpl. split_all; try done.
    unfold array_read. by rewrite lookup_app_r, Nat.sub_diag.
Qed.

(** ** The query of a request *)

Lemma elem_of_fetch_query params k s :
  (k, s) ∈ fetch_query params ↔
  ∃ v, (k, v) ∈ params ∧ v ≠ JUndefined ∧ v ≠ JNull ∧ s = query_value v.
Proof.
  unfold fetch_query. rewrite list_elem_of_omap. split.
  - intros ([k' v] & Hin & Hsome). simpl in Hsome.
    destruct v; simplify_eq; eexists; (split; [ exact Hin | done ]).
  - intros (v & Hin & Hu & Hn & ->). exists (k, v). split; [ done | ].
    simpl. by destruct v.
Qed.

(** X14: the query of a [fetchProducts] request has an entry exactly for the
    parameters that are neither [undefined] nor [null], in the order of the
    parameter object; an object or an array goes out as its JSON text and
    anything else through [String]. *)
Theorem fetch_query_skips_missing_values params :
  (∀ k s, (k, s) ∈ fetch_query params ↔
          ∃ v, (k, v) ∈ params ∧ v ≠ JUndefined ∧ v ≠ JNull ∧
               s = query_value v) ∧
  (fetch_query params).*1 `sublist_of` params.*1.
Proof.
  split.
  - intros k s. apply elem_of_fetch_query.
  - unfold fetch_query.
    induction params as [ | [k v] params IH ]; [ done | ].
    rewrite omap_cons_eq. simpl.
    destruct v; simpl;
      first [ by apply sublist_cons | by apply sublist_skip ].
Qed.

(** X15: the request of [loadMore] carries every parameter through
    [String]: besides the next page number, a parameter holding an object
    (the filters, the sort) goes out as the text [[object Object]], and one
    holding [undefined] as the text [undefined], where [fetchProducts]
    sends the JSON text and nothing. *)
Theorem loadMore_query_stringifies_objects h pg :
  seen_pagination h = Some pg → has_next_page pg = true →
  seen_loading h = false →
  ∃ t, tasks (loadMore h) = tasks h ++ [Some t] ∧ kind t = LoadMoreTask ∧
       ("page", string_of_Z (current_page pg + 1)) ∈ query t ∧
       (∀ k fs, (k, JObj fs) ∈ seen_params h → k ≠ "page" →
                (k, "[object Object]") ∈ query t ∧
                (k, default "undefined" (JSON_stringify (JObj fs)))
                  ∈ fetch_query (seen_params h)) ∧
       (∀ k, (k, JUndefined) ∈ seen_params h → k ≠ "page" →
             (k, "undefined") ∈ query t ∧
             ∀ s, (k, s) ∈ fetch_query (seen_params h) →
                  ∃ v, (k, v) ∈ seen_params h ∧ v ≠ JUndefined).
Proof.
  intros Hpg Hnext Hidle. unfold loadMore.
  rewrite Hpg, Hnext, Hidle, number_or_zero_id. simpl.
  eexists. split; [ reflexivity | ]. split; [ reflexivity | ].
  simpl. unfold loadMore_query.
  assert (Hmap : ∀ k v,
    (k, v) ∈ obj_set "page" (JNum (current_page pg + 1)) (seen_params h) →
    (k, js_String v)
      ∈ map (λ kv : string * JsValue, (kv.1, js_String kv.2))
          (obj_set "page" (JNum (current_page pg + 1)) (seen_params h))).
  { intros k v Hin. apply list_elem_of_fmap. by exists (k, v). }
  pose proof (elem_of_fetch_query (seen_params h)) as Hq.
  split_all.
  - apply (Hmap "page" (JNum (current_page pg + 1))), elem_of_obj_set_new.
  - intros k fs Hin Hk. split.
    + apply (Hmap k (JObj fs)), elem_of_obj_set_other; [ done | congruence ].
    + apply Hq. by exists (JObj fs).
  - intros k Hin Hk. split.
    + apply (Hmap k JUndefined), elem_of_obj_set_other; [ done | congruence ].
    + intros s (v & Hv & Hu & _)%Hq. by exists v.
Qed.

Lemma loadMore_query_stringifies_objects_witness :
  ∃ t, tasks (loadMore settled_hook) = tasks settled_hook ++ [Some t] ∧
       ("page", "2") ∈ query t.
Proof.
  destruct (loadMore_query_stringifies_objects settled_hook first_page)
    as (t & Ht & _ & Hpage & _); try reflexivity.
  exists t. split; [ exact Ht | exact Hpage ].
Defined.

(** ** Invariants of the hook *)

Lemma one_live_fetch_witness : 0%nat = 0%nat.
Proof.
  apply (one_live_fetch default_config (mount default_config ∅ [] 0) 0 0).
  - apply reachable_mount.
  - exists 0%nat. split; reflexivity.
  - exists 0%nat. split; reflexivity.
Defined.

Lemma at_most_one_retry_pending_witness : 0%nat = 0%nat.
Proof.
  apply (at_most_one_retry_pending default_config
           (run default_config [Settle 0 (Responded false 500) 10]
              (mount default_config ∅ [] 0)) 0 0).
  - apply reachable_run, reachable_mount.
  - exists 2000, [], true. reflexivity.
  - exists 2000, [], true. reflexivity.
Defined.

Lemma fetchProducts_tasks_cases p l now h :
  tasks (fetchProducts p l now h) = tasks h ∨
  tasks (fetchProducts p l now h)
    = tasks h ++ [Some (fetch_task p (length (signals h)) l)].
Proof.
  destruct (ProductsCache.get (productsCache h) p now) as [cached pc] eqn:Hget.
  destruct cached as [a | ], l.
  - right. rewrite fetchProducts_request by by left.
    simpl. by rewrite abort_current_tasks.
  - left. rewrite (fetchProducts_hit _ _ _ _ _ Hget).
    simpl. by rewrite abort_current_tasks.
  - right. rewrite fetchProducts_request by by left.
    simpl. by rewrite abort_current_tasks.
  - right. rewrite fetchProducts_request by (right; by rewrite Hget).
    simpl. by rewrite abort_current_tasks.
Qed.

Lemma fetchProducts_timers p l now h :
  timers (fetchProducts p l now h) = timers h ∧
  retryTimeoutRef (fetchProducts p l now h) = retryTimeoutRef h.
Proof.
  unfold fetchProducts.
  destruct (ProductsCache.get _ p now) as [cached pc].
  destruct (abort_current_frame h) as (_ & _ & _ & Ht & Hr).
  by destruct cached as [a | ], l.
Qed.

Lemma render_changed_live cfg now h i :
  reachable cfg h →
  loading (state h) ≠ seen_loading h ∨ params_dirty h = true →
  live_fetch (render cfg now h) i →
  autoFetch cfg = true ∧ i = length (tasks h).
Proof.
  intros Hok%reachable_controllers_ok Hchanged (c & Hi & Hlive).
  assert (Hrender : render cfg now h
            = fetch_effect cfg now
                (refresh_effect cfg (fetch_cleanup (refresh_cleanup cfg (commit h))))).
  { unfold render.
    destruct Hchanged as [Hl | ->]; [ | by rewrite orb_true_r ].
    destruct (loading (state h)), (seen_loading h); done. }
  rewrite Hrender in Hi, Hlive. clear Hrender.
  set (h3 := refresh_effect cfg (fetch_cleanup (refresh_cleanup cfg (commit h))))
    in *.
  assert (Hh3 : tasks h3 = tasks h ∧
                ∀ j cj, controller_of <$> tasks h !! j = Some (Some cj) →
                        signals h3 !! cj = Some true).
  { assert (H1 : controllers_ok (refresh_cleanup cfg (commit h)))
      by (by apply controllers_ok_refresh_cleanup).
    assert (Ht1 : tasks (refresh_cleanup cfg (commit h)) = tasks h).
    { unfold refresh_cleanup.
      by destruct (refresh_enabled cfg), (refreshIntervalRef (commit h)). }
    pose proof (all_aborted_after_abort _ _ _ H1) as Hall. simpl in Hall.
    rewrite <- abort_current_signals, Ht1 in Hall.
    set (h1 := refresh_cleanup cfg (commit h)) in *.
    assert (H2 : tasks (fetch_cleanup h1) = tasks h ∧
                 signals (fetch_cleanup h1) = signals (abort_current h1)).
    { unfold fetch_cleanup. rewrite <- Ht1, <- (abort_current_tasks h1).
      destruct (refreshIntervalRef (abort_current h1)); simpl;
        by destruct (retryTimeoutRef (abort_current h1)). }
    destruct H2 as [Ht2 Hs2]. subst h3. unfold refresh_effect.
    destruct (refresh_enabled cfg); simpl; rewrite Ht2, Hs2;
      (split; [ done | intros j cj Hj; by apply (Hall j cj) ]). }
  destruct Hh3 as [Ht3 Hab3].
  assert (Hold : ∀ h4, advances h3 h4 → (i < length (tasks h))%nat →
            controller_of <$> tasks h4 !! i = Some (Some c) →
            aborted h4 c = false → False).
  { intros h4 [Hsig Hslots] Hlt Hi4 Hlive4.
    destruct (lookup_lt_is_Some_2 (tasks h3) i) as [slot Hslot];
      [ by rewrite Ht3 | ].
    destruct (Hslots _ _ Hslot) as (slot' & Hslot' & Hev).
    rewrite Hslot' in Hi4. simpl in Hi4.
    destruct Hev as [-> | (t0 & t' & -> & -> & Hk)]; [ done | ].
    assert (Hc0 : controller_of <$> tasks h !! i = Some (Some c)).
    { rewrite <- Ht3, Hslot. simpl in *. by rewrite <- Hk. }
    rewrite (aborted_true h4 c) in Hlive4; [ done | ].
    by apply Hsig, (Hab3 i). }
  unfold fetch_effect in Hi, Hlive. destruct (autoFetch cfg).
  - split; [ done | ].
    destruct (decide (i < length (tasks h))%nat) as [Hlt | Hge].
    { destruct (Hold _ (advances_fetchProducts _ _ _ h3) Hlt Hi Hlive). }
    destruct (fetchProducts_tasks_cases (seen_params h3) (seen_loading h3) now h3)
      as [Heq | Heq]; rewrite Heq, Ht3 in Hi.
    + rewrite lookup_ge_None_2 in Hi by lia. done.
    + destruct (decide (i = length (tasks h))) as [-> | Hne]; [ done | ].
      rewrite lookup_ge_None_2 in Hi; [ done | ].
      rewrite length_app. simpl. lia.
  - destruct (decide (i < length (tasks h))%nat) as [Hlt | Hge].
    { destruct (Hold _ (advances_refl h3) Hlt Hi Hlive). }
    rewrite Ht3, lookup_ge_None_2 in Hi by lia. done.
Qed.

(** X18: a re-render that sees [state.loading] or the parameters changed
    runs the cleanup of the fetch effect, which cancels every request of
    [fetchProducts] that was pending. The only request that can be live
    after it is the one the effect issues itself, and only with
    [autoFetch]: without it, a request started by [refetch()] is cancelled
    by the re-render that its own [loading] update causes. *)
Theorem rerender_cancels_pending_fetches cfg now h i :
  reachable cfg h →
  loading (state h) ≠ seen_loading h ∨ params_dirty h = true →
  live_fetch (render cfg now h) i →
  autoFetch cfg = true ∧ i = length (tasks h).
Proof. apply render_changed_live. Qed.

Lemma rerender_cancels_pending_fetches_witness :
  autoFetch default_config = true ∧
  2%nat = length (tasks (run default_config [LoadMore] settled_hook)).
Proof.
  apply (rerender_cancels_pending_fetches default_config 30
           (run default_config [LoadMore] settled_hook) 2).
  - apply (reachable_run default_config [LoadMore]).
    apply (reachable_run default_config
             [Settle 0 (Responded true 200) 10;
              Settle 0 (Parsed first_page_body) 20; Render 21; Render 22]).
    apply reachable_mount.
  - left. vm_compute. discriminate.
  - exists 1%nat. split; vm_compute; reflexivity.
Defined.

(** X19: a retry timer fires once: it calls [fetchProducts] with the
    parameters of the failed call, leaves [retryTimeoutRef] empty and no
    retry armed, so that a later failure can schedule a retry again; firing
    it a second time does nothing. *)
Theorem retry_timer_fires_once cfg h i delay p l now :
  reachable cfg h →
  timers h !! i = Some (Some (RetryTimer delay p l)) →
  let h' := timer_fires i now h in
  h' = fetchProducts p l now (set_retryTimeoutRef None (clear_timer i h)) ∧
  retryTimeoutRef h' = None ∧
  (∀ j, ¬ retry_pending h' j) ∧
  (∀ now', timer_fires i now' h' = h').
Proof.
  intros Hok%reachable_retry_ok Hi h'.
  assert (Hh' : h' = fetchProducts p l now
                       (set_retryTimeoutRef None (clear_timer i h)))
    by (subst h'; exact (retry_fires i delay p l now h Hi)).
  destruct (fetchProducts_timers p l now
              (set_retryTimeoutRef None (clear_timer i h))) as [Htm Href].
  rewrite <- Hh' in Htm, Href. simpl in Htm, Href.
  assert (Hgone : timers h' !! i = Some None).
  { rewrite Htm. apply list_lookup_insert_eq. by eapply lookup_lt_Some. }
  split_all; try done.
  - intros j (d & p' & l' & Hj). rewrite Htm in Hj.
    pose proof (retry_inv_fired _ _ _ _ _ _ Hok Hi _ _ _ _ Hj). done.
  - intros now'. unfold timer_fires. by rewrite Hgone.
Qed.

Lemma retry_timer_fires_once_witness :
  let h := run manual_config [Refetch 1; Settle 0 (Responded false 500) 2]
             (mount manual_config ∅ [] 0) in
  retryTimeoutRef (timer_fires 0 2002 h) = None.
Proof.
  intros h.
  destruct (retry_timer_fires_once manual_config h 0%nat 2000 [] false 2002)
    as (_ & Href & _).
  - apply reachable_run, reachable_mount.
  - vm_compute. reflexivity.
  - exact Href.
Defined.

Lemma get_timeout pc params now :
  ProductsCache.timeout (ProductsCache.get pc params now).2
  = ProductsCache.timeout pc.
Proof.
  unfold ProductsCache.get.
  destruct (ProductsCache.cache pc !! _) as [e | ]; [ | done ].
  by destruct (_ >? _).
Qed.

Lemma fetchProducts_timeout p l now h :
  ProductsCache.timeout (productsCache (fetchProducts p l now h))
  = ProductsCache.timeout (productsCache h).
Proof.
  unfold fetchProducts.
  destruct (abort_current_frame h) as (_ & Hpc & _).
  pose proof (get_timeout (productsCache (abort_current h)) p now) as Ht.
  destruct (ProductsCache.get _ p now) as [cached pc]. simpl in Ht.
  rewrite Hpc in Ht. by destruct cached as [a | ], l.
Qed.

Lemma settle_timeout i o now h :
  ProductsCache.timeout (productsCache (settle i o now h))
  = ProductsCache.timeout (productsCache h).
Proof.
  unfold settle.
  destruct (tasks h !! i) as [[t | ] | ]; try done.
  destruct (kind t) as [p c l | ];
    [ | by rewrite resume_loadMore_cache ].
  unfold resume_fetchProducts.
  assert (Hcatch : ∀ e,
    productsCache (fetchProducts_catch e p l (finish i h)) = productsCache h).
  { intros e. unfold fetchProducts_catch.
    destruct e as [name msg | | ]; [ destruct (String.eqb name _) | | ];
      first [ done | apply (handleError_frame _ _ (finish i h)) ]. }
  destruct (aborted h c);
    [ destruct (awaiting t); exact (f_equal ProductsCache.timeout (Hcatch _)) | ].
  destruct (awaiting t), o as [[ | ] status | body | e];
    try done; try exact (f_equal ProductsCache.timeout (Hcatch _)).
  unfold fetchProducts_apply.
  destruct (success body);
    [ done | exact (f_equal ProductsCache.timeout (Hcatch _)) ].
Qed.

(** X20: the time to live of the hook's cache is five minutes in every
    reachable state: nothing in the configuration or in the hook's
    operations changes it. *)
Theorem cache_ttl_is_five_minutes cfg h :
  reachable cfg h → ProductsCache.timeout (productsCache h) = 300000.
Proof.
  assert (Heffect : ∀ now h0,
    ProductsCache.timeout (productsCache (fetch_effect cfg now h0))
    = ProductsCache.timeout (productsCache h0)).
  { intros now h0. unfold fetch_effect.
    destruct (autoFetch cfg); [ apply fetchProducts_timeout | done ]. }
  assert (Hrefresh : ∀ h0,
    productsCache (refresh_effect cfg h0) = productsCache h0)
    by (intros h0; unfold refresh_effect; by destruct (refresh_enabled cfg)).
  induction 1 as [entries m now | ev h Hreach IH].
  - unfold mount. simpl. by rewrite Heffect, Hrefresh.
  - rewrite <- IH.
    destruct ev as [now | now | | p | | i o now | i now ]; simpl.
    + unfold render. destruct (negb _ || _); [ | done ].
      rewrite Heffect, Hrefresh.
      destruct (rerun_frame cfg h) as (_ & _ & Hpc & _). simpl in Hpc.
      rewrite Hrefresh in Hpc. by rewrite Hpc.
    + unfold refetch. apply fetchProducts_timeout.
    + unfold loadMore. destruct (seen_pagination h) as [pg | ]; [ | done ].
      by destruct (negb (has_next_page pg) || seen_loading h).
    + done.
    + done.
    + apply settle_timeout.
    + unfold timer_fires.
      destruct (timers h !! i) as [[[delay p l | interval p l] | ] | ];
        try done; by rewrite fetchProducts_timeout.
Qed.

Lemma cache_ttl_is_five_minutes_witness :
  ProductsCache.timeout (productsCache settled_hook) = 300000.
Proof.
  apply (cache_ttl_is_five_minutes default_config).
  apply (reachable_run default_config
           [Settle 0 (Responded true 200) 10;
            Settle 0 (Parsed first_page_body) 20; Render 21; Render 22]).
  apply reachable_mount.
Defined.

(** ** The page hook and the product service *)

(** X21: whatever the service call of [useProductsPage] ends with,
    [loading] is false afterwards. The items and the time of the last update
    change only for a parsed response with [success = true], and then no
    error is shown; in every other case the items already shown are kept and
    an error message is recorded. *)
Theorem page_fetch_outcomes o now s :
  let s' := ProductsPage.fetch o now s in
  ProductsPage.loading s' = false ∧
  ((∃ status r, o = ProductsPage.FetchResponded true status
                      (ProductsPage.BodyParsed r) ∧
                ProductsPage.success r = true ∧
                ProductsPage.products s' = ProductsPage.data r ∧
                ProductsPage.lastUpdated s' = Some now ∧
                ProductsPage.error s' = None) ∨
   (ProductsPage.products s' = ProductsPage.products s ∧
    ProductsPage.lastUpdated s' = ProductsPage.lastUpdated s ∧
    is_Some (ProductsPage.error s'))).
Proof.
  simpl. split; [ done | ].
  destruct o as [e | [ | ] status [r | e]]; simpl;
    try (right; by split_all).
  destruct (ProductsPage.success r) eqn:Hok; simpl.
  - left. by exists status, r.
  - right. by split_all.
Qed.

(** X22: the message the page hook shows: the status for a non-2xx
    response; the message of the [Error] for a rejection, whatever its name
    (there is no cancellation here); a fixed text for a rejection with
    anything else; for an envelope with [success = false], its message, or
    the fixed text when it has none or an empty one. *)
Theorem page_fetch_error_messages now s :
  (∀ status body,
     ProductsPage.error
       (ProductsPage.fetch (ProductsPage.FetchResponded false status body) now s)
     = Some ("HTTP error! status: " +:+ string_of_Z status)) ∧
  (∀ name msg,
     ProductsPage.error
       (ProductsPage.fetch
          (ProductsPage.FetchRejected (ThrownError name msg)) now s)
     = Some msg) ∧
  (∀ text,
     ProductsPage.error
       (ProductsPage.fetch
          (ProductsPage.FetchRejected (ThrownString text)) now s)
     = Some "Failed to fetch products") ∧
  (∀ status r, ProductsPage.success r = false →
     ProductsPage.error
       (ProductsPage.fetch
          (ProductsPage.FetchResponded true status (ProductsPage.BodyParsed r))
          now s)
     = Some (string_or (ProductsPage.message r) "Failed to fetch products")).
Proof.
  split_all; try done.
  intros status r Hfail. unfold ProductsPage.fetch. simpl. by rewrite Hfail.
Qed.

Lemma page_fetch_error_messages_witness :
  ProductsPage.error
    (ProductsPage.fetch
       (ProductsPage.FetchResponded true 200
          (ProductsPage.BodyParsed
             {| ProductsPage.success := false; ProductsPage.data := [];
                ProductsPage.message := Some "" |}))
       5 ProductsPage.initial)
  = Some "Failed to fetch products".
Proof.
  destruct (page_fetch_error_messages 5 ProductsPage.initial)
    as (_ & _ & _ & Henvelope).
  apply (Henvelope 200
           {| ProductsPage.success := false; ProductsPage.data := [];
              ProductsPage.message := Some "" |}).
  reflexivity.
Defined.

(** ** The error boundary *)

Lemma key_differs_false a b :
  ErrorBoundary.key_differs a b = false ↔ b = Some a.
Proof.
  destruct a as [s | n], b as [[s' | n'] | ]; simpl;
    rewrite ?negb_false_iff, ?String.eqb_eq, ?Z.eqb_eq;
    split; intros; simplify_eq; done.
Qed.

Lemma some_differs_false index keys prevKeys :
  ErrorBoundary.some_differs index keys prevKeys = false ↔
  ∀ j key, keys !! j = Some key → prevKeys !! (index + j)%nat = Some key.
Proof.
  revert index. induction keys as [ | key keys IH ]; intros index; simpl.
  - split; [ intros _ j key' Hj; by rewrite lookup_nil in Hj | done ].
  - rewrite orb_false_iff, key_differs_false, IH. split.
    + intros [Hhead Htail] [ | j ] key' Hj; simpl in Hj.
      * simplify_eq. by rewrite Nat.add_0_r.
      * replace (index + S j)%nat with (S index + j)%nat by lia.
        by apply Htail.
    + intros Hall. split.
      * rewrite <- (Nat.add_0_r index). by apply Hall.
      * intros j key' Hj.
        replace (S index + j)%nat with (index + S j)%nat by lia.
        by apply Hall.
Qed.

(** X23: [hasResetKeysChanged] answers false exactly when the current reset
    keys and the previous ones are the same list (an absent prop counting as
    the empty list): same length, and the same string or number at every
    position. *)
Theorem hasResetKeysChanged_iff resetKeys prevResetKeys :
  ErrorBoundary.hasResetKeysChanged resetKeys prevResetKeys = false ↔
  default [] resetKeys = default [] prevResetKeys.
Proof.
  unfold ErrorBoundary.hasResetKeysChanged.
  set (keys := default [] resetKeys). set (prevKeys := default [] prevResetKeys).
  destruct (Nat.eqb_spec (length keys) (length prevKeys)) as [Hlen | Hlen]; simpl.
  - rewrite some_differs_false. split.
    + intros Hall. apply list_eq. intros j.
      destruct (keys !! j) as [key | ] eqn:Hj.
      * symmetry. by apply (Hall j).
      * apply lookup_ge_None in Hj. symmetry. apply lookup_ge_None. lia.
    + intros <- j key Hj. done.
  - split; [ done | ]. intros Heq. by rewrite Heq in Hlen.
Qed.

(** X24: the retry counter never adds up across retries. With a limit of at
    least one retry (the default is 3), a retry followed by its scheduled
    reset brings the boundary back to its initial state, counter included;
    so however many times the children fail again and the user retries, the
    retry is never refused. *)
Theorem retries_never_exhausted maxRetries failures :
  0 < default 3 maxRetries →
  foldl (fun s failure =>
           ErrorBoundary.retry_cycle maxRetries
             (ErrorBoundary.getDerivedStateFromError failure.1 failure.2 s))
    ErrorBoundary.initial failures
  = ErrorBoundary.initial.
Proof.
  intros Hlimit. induction failures as [ | [e id] failures IH ]; [ done | ].
  simpl. unfold ErrorBoundary.retry_cycle at 2.
  unfold ErrorBoundary.retry_disabled, ErrorBoundary.handleRetry. simpl.
  assert (Hbutton : (match maxRetries with
                     | Some n => if n =? 0 then 3 else n
                     | None => 3
                     end <=? 0) = false).
  { apply Z.leb_gt. destruct maxRetries as [n | ]; simpl in *; [ | lia ].
    destruct (Z.eqb_spec n 0); lia. }
  rewrite Hbutton.
  assert (Hcount : (default 3 maxRetries <=? 0) = false) by (apply Z.leb_gt; lia).
  rewrite Hcount. simpl. exact IH.
Qed.

Lemma retries_never_exhausted_witness :
  foldl (fun s failure =>
           ErrorBoundary.retry_cycle (Some 1)
             (ErrorBoundary.getDerivedStateFromError failure.1 failure.2 s))
    ErrorBoundary.initial
    [(ThrownOther, "error_1"); (ThrownOther, "error_2"); (ThrownOther, "error_3")]
  = ErrorBoundary.initial.
Proof.
  apply (retries_never_exhausted (Some 1)). simpl. lia.
Defined.

(** X25: with [maxRetries] set to 0 the retry button and its handler
    disagree: the button reads the limit as [maxRetries || 3] and stays
    enabled for the first three attempts, while [handleRetry], whose default
    applies only to an absent prop, refuses every attempt. *)
Theorem zero_maxRetries_button_enabled_handler_refuses s :
  0 ≤ ErrorBoundary.retryCount s < 3 →
  ErrorBoundary.retry_disabled (Some 0) s = false ∧
  ErrorBoundary.handleRetry (Some 0) s = (s, false) ∧
  ErrorBoundary.retry_cycle (Some 0) s = s.
Proof.
  intros Hcount.
  unfold ErrorBoundary.retry_cycle, ErrorBoundary.retry_disabled,
    ErrorBoundary.handleRetry. simpl.
  assert (Hbutton : (3 <=? ErrorBoundary.retryCount s) = false)
    by (apply Z.leb_gt; lia).
  assert (Hhandler : (0 <=? ErrorBoundary.retryCount s) = true)
    by (apply Z.leb_le; lia).
  by rewrite Hbutton, Hhandler.
Qed.

Lemma zero_maxRetries_button_enabled_handler_refuses_witness :
  ErrorBoundary.retry_disabled (Some 0)
    (ErrorBoundary.getDerivedStateFromError ThrownOther "error_1"
       ErrorBoundary.initial) = false ∧
  ErrorBoundary.handleRetry (Some 0)
    (ErrorBoundary.getDerivedStateFromError ThrownOther "error_1"
       ErrorBoundary.initial)
  = (ErrorBoundary.getDerivedStateFromError ThrownOther "error_1"
       ErrorBoundary.initial, false).
Proof.
  destruct (zero_maxRetries_button_enabled_handler_refuses
              (ErrorBoundary.getDerivedStateFromError ThrownOther "error_1"
                 ErrorBoundary.initial))
    as (Hb & Hh & _).
  - simpl. lia.
  - split; [ exact Hb | exact Hh ].
Defined.

(** ** Configuration *)

Lemma string_or_nonempty a b : b ≠ "" → string_or a b ≠ "".
Proof.
  intros Hb. unfold string_or. destruct a as [s | ]; [ | done ].
  by destruct (String.eqb_spec s "").
Qed.

(** X26: [validateEnvironment] never throws, whatever the environment: the
    defaults are substituted before the check of the required variables, so
    in production too the API URL it checks is never empty. *)
Theorem validateEnvironment_never_throws env :
  ∃ config, Config.validateEnvironment env = inr config ∧
            Config.NEXT_PUBLIC_API_URL config ≠ "" ∧
            Config.NODE_ENV config ≠ "".
Proof.
  unfold Config.validateEnvironment.
  set (config := {| Config.NODE_ENV := _ |}).
  assert (Hurl : Config.NEXT_PUBLIC_API_URL config ≠ "")
    by (by apply string_or_nonempty).
  assert (Henv : Config.NODE_ENV config ≠ "")
    by (by apply string_or_nonempty).
  exists config. split; [ | done ].
  destruct (String.eqb (Config.NODE_ENV config) "production"); [ | done ].
  simpl. change (string_or (env "NEXT_PUBLIC_API_URL") "http://localhost:8000")
    with (Config.NEXT_PUBLIC_API_URL config).
  by destruct (String.eqb_spec (Config.NEXT_PUBLIC_API_URL config) "").
Qed.

Lemma string_append_assoc a b c : (a +:+ b) +:+ c = a +:+ (b +:+ c).
Proof.
  induction a as [ | x a IH ]; [ done | ].
  change (String x ((a +:+ b) +:+ c) = String x (a +:+ (b +:+ c))).
  by rewrite IH.
Qed.

Lemma strip_trailing_slash_app b :
  Config.strip_trailing_slash (b +:+ "/") = b.
Proof.
  induction b as [ | c b IH ]; [ done | ].
  simpl. rewrite IH. by destruct b.
Qed.

(** X27: [buildApiUrl] takes one trailing slash off the base and one
    leading slash off the endpoint, and puts one slash between them: with or
    without these two slashes the URL is the same, and any further slash is
    kept. *)
Theorem buildApiUrl_joins_with_one_slash base endpoint :
  Config.buildApiUrl (base +:+ "/") ("/" +:+ endpoint)
    = base +:+ "/" +:+ endpoint ∧
  Config.buildApiUrl (base +:+ "/") endpoint
    = base +:+ "/" +:+ Config.strip_leading_slash endpoint ∧
  Config.buildApiUrl base ("/" +:+ endpoint)
    = Config.strip_trailing_slash base +:+ "/" +:+ endpoint ∧
  Config.buildApiUrl (base +:+ "//") ("//" +:+ endpoint)
    = base +:+ "///" +:+ endpoint.
Proof.
  unfold Config.buildApiUrl. split_all.
  - by rewrite strip_trailing_slash_app.
  - by rewrite strip_trailing_slash_app.
  - done.
  - change (base +:+ "//") with (base +:+ ("/" +:+ "/")).
    rewrite <- (string_append_assoc base "/" "/"), strip_trailing_slash_app.
    change (Config.strip_leading_slash ("//" +:+ endpoint))
      with ("/" +:+ endpoint).
    rewrite string_append_assoc. reflexivity.
Qed.

(** ** The refresh interval *)

Lemma no_new_refresh_refl tm : no_new_refresh tm tm.
Proof. by intros i n p l Hi. Qed.

Lemma no_new_refresh_retry tm delay p l :
  no_new_refresh tm (tm ++ [Some (RetryTimer delay p l)]).
Proof.
  intros i n p' l' Hi. destruct (decide (i < length tm)%nat) as [Hlt | Hge].
  - by rewrite lookup_app_l in Hi.
  - rewrite lookup_app_r in Hi by lia.
    destruct (i - length tm)%nat as [ | j ]; [ done | by destruct j ].
Qed.

Lemma no_new_refresh_clear (tm : list (option Timer)) i :
  no_new_refresh tm (<[i := None]> tm).
Proof.
  intros j n p l Hj. destruct (decide (i = j)) as [<- | Hne].
  - destruct (decide (i < length tm)%nat).
    + by rewrite list_lookup_insert_eq in Hj.
    + by rewrite list_insert_ge in Hj by lia.
  - by rewrite list_lookup_insert_ne in Hj.
Qed.

Lemma refresh_ok_keep cfg h h' :
  refresh_view h' = refresh_view h →
  no_new_refresh (timers h) (timers h') →
  refresh_ok cfg h → refresh_ok cfg h'.
Proof.
  unfold refresh_view. intros [= Href Hp Hl Hsp Hd] Hnew [Harmed Hclean].
  split.
  - intros i n p l Hi. rewrite Href, Hp, Hl. by apply Harmed, Hnew.
  - rewrite Hd, Hsp, Hp. exact Hclean.
Qed.

Lemma abort_current_keeps_refresh h :
  refresh_view (abort_current h) = refresh_view h ∧
  timers (abort_current h) = timers h.
Proof. unfold abort_current. by destruct (abortControllerRef h). Qed.

Lemma handleError_keeps_refresh e r h :
  refresh_view (handleError e r h) = refresh_view h ∧
  no_new_refresh (timers h) (timers (handleError e r h)).
Proof.
  unfold handleError. simpl.
  destruct r as [[p l] | ], (retryTimeoutRef h); simpl;
    (split; [ done | ]);
    first [ apply no_new_refresh_retry | apply no_new_refresh_refl ].
Qed.

Lemma fetchProducts_keeps_refresh p l now h :
  refresh_view (fetchProducts p l now h) = refresh_view h ∧
  timers (fetchProducts p l now h) = timers h.
Proof.
  unfold fetchProducts.
  destruct (ProductsCache.get _ p now) as [cached pc].
  pose proof (abort_current_keeps_refresh h) as Hab.
  by destruct cached as [a | ], l.
Qed.

Lemma settle_keeps_refresh i o now h :
  refresh_view (settle i o now h) = refresh_view h ∧
  no_new_refresh (timers h) (timers (settle i o now h)).
Proof.
  pose proof (no_new_refresh_refl (timers h)) as Hrefl.
  unfold settle.
  destruct (tasks h !! i) as [[t | ] | ]; try done.
  assert (Herr : ∀ e r,
    refresh_view (handleError e r (finish i h)) = refresh_view h ∧
    no_new_refresh (timers h) (timers (handleError e r (finish i h))))
    by (intros e r; apply (handleError_keeps_refresh e r (finish i h))).
  assert (Hcatch : ∀ e p l,
    refresh_view (fetchProducts_catch e p l (finish i h)) = refresh_view h ∧
    no_new_refresh (timers h) (timers (fetchProducts_catch e p l (finish i h)))).
  { intros e p l. unfold fetchProducts_catch.
    destruct e as [name msg | | ]; [ destruct (String.eqb name _) | | ];
      first [ apply Herr | done ]. }
  destruct (kind t) as [p c l | ].
  - unfold resume_fetchProducts.
    destruct (aborted h c); [ destruct (awaiting t); apply Hcatch | ].
    destruct (awaiting t), o as [[ | ] status | body | e];
      try done; try apply Hcatch.
    unfold fetchProducts_apply.
    destruct (success body); [ done | apply Hcatch ].
  - unfold resume_loadMore.
    destruct (awaiting t), o as [[ | ] status | body | e];
      try done; try apply Herr.
    unfold loadMore_apply. by destruct (success body), (data_data body).
Qed.

Lemma refresh_cleanup_keeps_refresh cfg h :
  refresh_view (refresh_cleanup cfg h) = refresh_view h ∧
  no_new_refresh (timers h) (timers (refresh_cleanup cfg h)).
Proof.
  unfold refresh_cleanup.
  destruct (refresh_enabled cfg), (refreshIntervalRef h); simpl;
    (split; [ done | ]);
    first [ apply no_new_refresh_clear | apply no_new_refresh_refl ].
Qed.

(** The cleanup of the initial-fetch effect clears the interval in
    [refreshIntervalRef]: if that is the only one armed, none is left. *)
Lemma fetch_cleanup_disarms h :
  (∀ i n p l, timers h !! i = Some (Some (RefreshTimer n p l)) →
              refreshIntervalRef h = Some i) →
  refresh_view (fetch_cleanup h) = refresh_view h ∧
  ∀ i n p l, timers (fetch_cleanup h) !! i ≠ Some (Some (RefreshTimer n p l)).
Proof.
  intros Hone. unfold fetch_cleanup.
  destruct (abort_current_keeps_refresh h) as [Hva Hta].
  assert (Href : refreshIntervalRef (abort_current h) = refreshIntervalRef h)
    by (unfold refresh_view in Hva; congruence).
  rewrite Href.
  assert (Hgone : ∀ r, refreshIntervalRef h = Some r →
    ∀ i n p l, <[r := None]> (timers h) !! i ≠ Some (Some (RefreshTimer n p l))).
  { intros r Hr i n p l Hi.
    pose proof (no_new_refresh_clear _ _ _ _ _ _ Hi) as Hold.
    apply Hone in Hold. rewrite Hr in Hold. injection Hold as ->.
    apply no_new_refresh_clear in Hi as Hlt. apply lookup_lt_Some in Hlt.
    by rewrite list_lookup_insert_eq in Hi. }
  destruct (refreshIntervalRef h) as [r | ] eqn:Hr; simpl.
  - destruct (retryTimeoutRef (abort_current h)) as [t | ]; simpl;
      (split; [ exact Hva | ]); rewrite Hta; intros i n p l Hi.
    + by apply no_new_refresh_clear, Hgone in Hi.
    + by apply Hgone in Hi.
  - destruct (retryTimeoutRef (abort_current h)) as [t | ]; simpl;
      (split; [ exact Hva | ]); rewrite Hta; intros i n p l Hi.
    + by apply no_new_refresh_clear, Hone in Hi.
    + by apply Hone in Hi.
Qed.

(** The refresh effect on a hook with no interval armed. *)
Lemma refresh_effect_arms cfg h :
  (∀ i n p l, timers h !! i ≠ Some (Some (RefreshTimer n p l))) →
  (params_dirty h = false → searchParams h = seen_params h) →
  refresh_ok cfg (refresh_effect cfg h).
Proof.
  intros Hnone Hclean. unfold refresh_effect.
  destruct (refresh_enabled cfg) eqn:Hen.
  - split; [ | exact Hclean ]. simpl. intros i n p l Hi.
    destruct (decide (i < length (timers h))%nat) as [Hlt | Hge].
    { rewrite lookup_app_l in Hi by done. by destruct (Hnone _ _ _ _ Hi). }
    rewrite lookup_app_r in Hi by lia.
    destruct (i - length (timers h))%nat as [ | j ] eqn:Hj;
      [ | by destruct j ].
    simpl in Hi. injection Hi as <- <- <-.
    unfold refresh_enabled in Hen.
    destruct (refreshInterval cfg) as [n | ]; [ | done ]. simpl.
    destruct (Z.eqb_spec n 0), (Z.ltb_spec 0 n); simpl in Hen; try done.
    split_all; try done. f_equal. lia.
  - split; [ | exact Hclean ]. intros i n p l Hi.
    by destruct (Hnone _ _ _ _ Hi).
Qed.

Lemma refresh_ok_fetch_effect cfg now h :
  refresh_ok cfg h → refresh_ok cfg (fetch_effect cfg now h).
Proof.
  intros Hok. unfold fetch_effect. destruct (autoFetch cfg); [ | exact Hok ].
  destruct (fetchProducts_keeps_refresh (seen_params h) (seen_loading h) now h)
    as [Hv Ht].
  eapply refresh_ok_keep; [ exact Hv | | exact Hok ].
  rewrite Ht. apply no_new_refresh_refl.
Qed.

Lemma refresh_ok_mount cfg entries m now :
  refresh_ok cfg (mount cfg entries m now).
Proof.
  unfold mount. destruct (array_alloc [] m) as [empty m'].
  apply refresh_ok_fetch_effect, refresh_effect_arms.
  - intros i n p l Hi. simpl in Hi. by destruct i.
  - done.
Qed.

Lemma refresh_ok_render cfg now h :
  refresh_ok cfg h → refresh_ok cfg (render cfg now h).
Proof.
  intros [Harmed Hclean]. unfold render.
  destruct (negb _ || _) eqn:Hchanged.
  - apply refresh_ok_fetch_effect.
    destruct (refresh_cleanup_keeps_refresh cfg (commit h)) as [Hv1 Hnew1].
    destruct (fetch_cleanup_disarms (refresh_cleanup cfg (commit h)))
      as [Hv2 Hnone].
    { intros i n p l Hi. apply Hnew1 in Hi.
      destruct (Harmed _ _ _ _ Hi) as (Hr & _).
      unfold refresh_view in Hv1. injection Hv1 as -> _ _ _ _. exact Hr. }
    apply refresh_effect_arms; [ exact Hnone | ].
    unfold refresh_view in Hv1, Hv2.
    injection Hv2 as _ Hp2 _ Hsp2 _. injection Hv1 as _ Hp1 _ Hsp1 _.
    intros _. by rewrite Hsp2, Hp2, Hsp1, Hp1.
  - apply orb_false_iff in Hchanged as [Hl Hd].
    apply negb_false_iff, eqb_prop in Hl.
    split; simpl; [ | done ].
    intros i n p l Hi. rewrite Hl, (Hclean Hd). by apply Harmed.
Qed.

Lemma refresh_ok_step cfg ev h :
  refresh_ok cfg h → refresh_ok cfg (step cfg ev h).
Proof.
  intros Hok. destruct ev as [now | now | | p | | i o now | i now ]; simpl.
  - by apply refresh_ok_render.
  - unfold refetch.
    destruct (fetchProducts_keeps_refresh (seen_params h) (seen_loading h) now h)
      as [Hv Ht].
    eapply refresh_ok_keep; [ exact Hv | | exact Hok ].
    rewrite Ht. apply no_new_refresh_refl.
  - unfold loadMore. destruct (seen_pagination h) as [pg | ]; [ | done ].
    by destruct (negb (has_next_page pg) || seen_loading h).
  - destruct Hok as [Harmed _]. split; [ exact Harmed | done ].
  - exact Hok.
  - destruct (settle_keeps_refresh i o now h) as [Hv Hnew].
    by eapply refresh_ok_keep.
  - unfold timer_fires.
    destruct (timers h !! i) as [[[delay p l | interval p l] | ] | ];
      try done.
    + destruct (fetchProducts_keeps_refresh p l now
                  (set_retryTimeoutRef None (clear_timer i h))) as [Hv Ht].
      apply (refresh_ok_keep cfg h); [ exact Hv | | exact Hok ].
      rewrite Ht. apply no_new_refresh_clear.
    + destruct (fetchProducts_keeps_refresh p l now h) as [Hv Ht].
      eapply refresh_ok_keep; [ exact Hv | | exact Hok ].
      rewrite Ht. apply no_new_refresh_refl.
Qed.

Lemma reachable_refresh_ok cfg h : reachable cfg h → refresh_ok cfg h.
Proof.
  induction 1 as [entries m now | ev h _ IH].
  - apply refresh_ok_mount.
  - by apply refresh_ok_step.
Qed.

(** X28: in every reachable state of the hook at most one refresh interval
    is armed. It is the one in [refreshIntervalRef], it has the configured
    period, which is positive, and its callback is the [refetch] of the
    latest render: it fetches with the parameters and the [state.loading]
    that render saw. In particular a re-render leaves no interval of an
    earlier render behind, and without a positive [refreshInterval] none is
    ever armed. *)
Theorem one_refresh_interval cfg h i j n p l n' p' l' :
  reachable cfg h →
  timers h !! i = Some (Some (RefreshTimer n p l)) →
  timers h !! j = Some (Some (RefreshTimer n' p' l')) →
  i = j ∧ refreshIntervalRef h = Some i ∧
  refreshInterval cfg = Some n ∧ 0 < n ∧
  p = seen_params h ∧ l = seen_loading h.
Proof.
  intros [Harmed _]%reachable_refresh_ok Hi Hj.
  destruct (Harmed _ _ _ _ Hi) as (Hri & Hn & Hpos & Hp & Hl).
  destruct (Harmed _ _ _ _ Hj) as (Hrj & _).
  split_all; try done. congruence.
Qed.

Lemma one_refresh_interval_witness :
  let h := run (page_config phone_params)
             [Settle 0 (Responded true 200) 10; Settle 0 (Parsed first_page_body) 20;
              Render 30]
             (mount (page_config phone_params) ∅ [] 0) in
  1%nat = 1%nat ∧ refreshIntervalRef h = Some 1%nat ∧
  refreshInterval (page_config phone_params) = Some 30000 ∧ 0 < 30000 ∧
  phone_params = seen_params h ∧ false = seen_loading h.
Proof.
  intros h.
  apply (one_refresh_interval (page_config phone_params) h 1 1
           30000 phone_params false 30000 phone_params false).
  - apply reachable_run, reachable_mount.
  - vm_compute; reflexivity.
  - vm_compute; reflexivity.
Defined.

(** ** [refetch] without [autoFetch] *)

Lemma render_manual cfg now h :
  autoFetch cfg = false →
  state (render cfg now h) = state h ∧ tasks (render cfg now h) = tasks h ∧
  (loading (state h) ≠ seen_loading h →
   signals (render cfg now h) = signals (abort_current h)).
Proof.
  intros Hauto. unfold render, fetch_effect. rewrite Hauto.
  destruct (negb _ || _) eqn:Hchanged.
  - unfold refresh_effect, fetch_cleanup, refresh_cleanup, abort_current.
    repeat (simpl;
      match goal with
      | |- context [if refresh_enabled cfg then _ else _] =>
          destruct (refresh_enabled cfg)
      | |- context [match refreshIntervalRef ?x with _ => _ end] =>
          destruct (refreshIntervalRef x)
      | |- context [match retryTimeoutRef ?x with _ => _ end] =>
          destruct (retryTimeoutRef x)
      | |- context [match abortControllerRef ?x with _ => _ end] =>
          destruct (abortControllerRef x)
      end); simpl; done.
  - split_all; try done. intros Hne.
    apply orb_false_iff in Hchanged as [Hl _].
    apply negb_false_iff, eqb_prop in Hl. done.
Qed.

(** X29: with [autoFetch] off, a [refetch()] whose closure saw
    [state.loading] false and that misses the cache sets [loading], which
    gives a new [fetchProducts]; at the re-render the cleanup of the
    initial-fetch effect aborts the request just issued and the effect
    starts no other. After that render [loading] is true, no
    [fetchProducts] request is live, and whatever comes back for the
    aborted request leaves the state as it is. *)
Theorem manual_refetch_cancelled_by_rerender cfg now now' h :
  reachable cfg h → autoFetch cfg = false → seen_loading h = false →
  (ProductsCache.get (productsCache h) (seen_params h) now).1 = None →
  let h' := render cfg now' (refetch now h) in
  loading (state h') = true ∧ (∀ i, ¬ live_fetch h' i) ∧
  ∀ o now'', state (settle (length (tasks h)) o now'' h') = state h'.
Proof.
  intros Hreach Hauto Hseen Hmiss h'.
  assert (Hreach1 : reachable cfg (refetch now h))
    by apply (reachable_step cfg (Refetch now) h Hreach).
  assert (Hreq := fetchProducts_request (seen_params h) (seen_loading h) now h
                    (or_intror Hmiss)).
  fold (refetch now h) in Hreq.
  assert (Hloading : loading (state (refetch now h)) = true)
    by (rewrite Hreq; reflexivity).
  assert (Hseen1 : seen_loading (refetch now h) = false)
    by (rewrite Hreq; simpl; unfold abort_current;
        destruct (abortControllerRef h); exact Hseen).
  assert (Hchanged : loading (state (refetch now h)) ≠ seen_loading (refetch now h))
    by (by rewrite Hloading, Hseen1).
  destruct (render_manual cfg now' (refetch now h) Hauto) as (Hst & Hts & Hsg).
  specialize (Hsg Hchanged). fold h' in Hst, Hts, Hsg.
  split; [ | split ].
  - by rewrite Hst.
  - intros i Hlive.
    destruct (render_changed_live cfg now' (refetch now h) i Hreach1
                (or_introl Hchanged) Hlive) as [Heq _].
    congruence.
  - intros o now''.
    assert (Htask : tasks h' !! length (tasks h)
              = Some (Some (fetch_task (seen_params h) (length (signals h))
                              (seen_loading h)))).
    { rewrite Hts, Hreq. simpl. rewrite abort_current_tasks.
      by rewrite lookup_app_r, Nat.sub_diag by lia. }
    assert (Hab : signals h' !! length (signals h) = Some true).
    { rewrite Hsg, Hreq. unfold abort_current at 1. simpl.
      rewrite abort_current_length.
      apply list_lookup_insert_eq. rewrite length_app, abort_current_length.
      simpl. lia. }
    by rewrite (settle_aborted_fetch _ _ _ _ _ o now'' h' Htask eq_refl Hab).
Qed.

Lemma manual_refetch_cancelled_by_rerender_witness :
  let h := mount manual_config ∅ [] 0 in
  let h' := render manual_config 20 (refetch 10 h) in
  loading (state h') = true ∧ (∀ i, ¬ live_fetch h' i) ∧
  ∀ o now'', state (settle (length (tasks h)) o now'' h') = state h'.
Proof.
  intros h.
  apply (manual_refetch_cancelled_by_rerender manual_config 10 20 h).
  - apply reachable_mount.
  - reflexivity.
  - reflexivity.
  - vm_compute; reflexivity.
Defined.
